(** * lit-element: render lifecycle and hot replacement

    A shallow embedding of [src/lit-element.ts] (the [LitElement] base class:
    render gating, rendering, render-completion promise) and of
    [src/hot-replace-callback.ts] (member migration between class objects and
    the static / per-instance hot-replace callbacks), with the properties the
    specification states about them.

    JavaScript objects are finite maps from property names to property
    descriptors; methods that mutate [this] are computations in a state and
    exception monad, so that a [throw] keeps the mutations made before it. *)

From Stdlib Require Import Ascii String.
From stdpp Require Import gmap strings list fin_maps pretty.

Set Default Proof Using "Type".
Open Scope string_scope.
Open Scope list_scope.

(* ===================================================================== *)
(** * JavaScript values, errors and completions *)
(* ===================================================================== *)

(** Values stored in properties.  Functions and objects are references:
    copying a descriptor copies the reference, not the referent. *)
Inductive JsValue :=
| VUndefined
| VBool (b : bool)
| VNum (n : Z)
| VStr (s : string)
| VRef (address : nat).

#[global] Instance JsValue_eq_dec : EqDecision JsValue.
Proof. solve_decision. Defined.

Inductive JsError :=
| TypeError (message : string)
| Error (message : string).

#[global] Instance JsError_eq_dec : EqDecision JsError.
Proof. solve_decision. Defined.

(** How a call ends: it returns a value or throws. *)
Inductive Completion (A : Type) :=
| Normal (a : A)
| Throw (e : JsError).
Arguments Normal {A} a.
Arguments Throw {A} e.

(** A method body: it reads and mutates a state [S] and returns or throws.
    The state after a [Throw] is the state at the throw. *)
Definition M (S A : Type) : Type := S → Completion A * S.

Definition ret {S A} (a : A) : M S A := λ s, (Normal a, s).

Definition bind {S A B} (m : M S A) (k : A → M S B) : M S B :=
  λ s, match m s with
       | (Normal a, s') => k a s'
       | (Throw e, s') => (Throw e, s')
       end.

Definition throw {S A} (e : JsError) : M S A := λ s, (Throw e, s).
Definition get {S} : M S S := λ s, (Normal s, s).
Definition gets {S A} (f : S → A) : M S A := λ s, (Normal (f s), s).
Definition modify {S} (f : S → S) : M S unit := λ s, (Normal tt, f s).

(** [try { m } catch {}] *)
Definition try_catch {S} (m : M S unit) : M S unit :=
  λ s, match m s with
       | (Throw _, s') => (Normal tt, s')
       | r => r
       end.

Declare Scope js_scope.
Delimit Scope js_scope with js.
Notation "x ← m ; k" := (bind m (λ x, k))
  (at level 20, m at level 100, k at level 200, only parsing) : js_scope.
Notation "m ;; k" := (bind m (λ _, k))
  (at level 100, k at level 200, right associativity) : js_scope.
Open Scope js_scope.

(** [for (const x of l) body(x)] *)
Fixpoint for_of {S A} (l : list A) (body : A → M S unit) : M S unit :=
  match l with
  | [] => ret tt
  | x :: l' => body x ;; for_of l' body
  end.

(** [if (c) m] *)
Definition when {S} (c : bool) (m : M S unit) : M S unit :=
  if c then m else ret tt.

(* ===================================================================== *)
(** * Objects and property descriptors (hot-replace-callback.ts) *)
(* ===================================================================== *)

(** A complete property descriptor, as [Object.getOwnPropertyDescriptor]
    returns it: a data property or an accessor pair, with its attributes. *)
Inductive PropertyBody :=
| DataProperty (value : JsValue) (writable : bool)
| AccessorProperty (getter setter : JsValue).

#[global] Instance PropertyBody_eq_dec : EqDecision PropertyBody.
Proof. solve_decision. Defined.

Record PropertyDescriptor := mkDescriptor {
  body : PropertyBody;
  enumerable : bool;
  configurable : bool;
}.

#[global] Instance PropertyDescriptor_eq_dec : EqDecision PropertyDescriptor.
Proof. solve_decision. Defined.

(** An ordinary object: its own string-named properties (the ones
    [Object.getOwnPropertyNames] lists) and its [[Extensible]] flag. *)
Record JsObject := mkObject {
  props : gmap string PropertyDescriptor;
  extensible : bool;
}.

Definition set_props (f : gmap string PropertyDescriptor → gmap string PropertyDescriptor)
    (o : JsObject) : JsObject :=
  {| props := f (props o); extensible := extensible o |}.

Definition getOwnPropertyNames (o : JsObject) : list string :=
  (map_to_list (props o)).*1.

Definition getOwnPropertyDescriptor (o : JsObject) (prop : string)
    : option PropertyDescriptor :=
  props o !! prop.

(** May a non-configurable property [current] be redefined as [desc]?
    Only when nothing observable changes, except that a writable data
    property may take a new value or become read-only. *)
Definition compatible_redefinition (current desc : PropertyDescriptor) : bool :=
  negb (configurable desc)
  && bool_decide (enumerable desc = enumerable current)
  && match body current, body desc with
     | DataProperty v w, DataProperty v' w' =>
         w || (negb w' && bool_decide (v' = v))
     | AccessorProperty g s, AccessorProperty g' s' =>
         bool_decide (g' = g) && bool_decide (s' = s)
     | _, _ => false
     end.

(** [Object.defineProperty(o, prop, desc)] for a complete descriptor.
    It throws a TypeError when [o] is not extensible and has no such
    property, or when the existing property is not configurable and [desc]
    is not a compatible redefinition of it. *)
Definition defineProperty (prop : string) (desc : PropertyDescriptor)
    : M JsObject unit :=
  o ← get;
  match props o !! prop with
  | None =>
      if extensible o then modify (set_props (insert prop desc))
      else throw (TypeError "Cannot define property, object is not extensible")
  | Some current =>
      if configurable current || compatible_redefinition current desc
      then modify (set_props (insert prop desc))
      else throw (TypeError "Cannot redefine property")
  end.

(** [delete o[prop]] in strict-mode code (modules are strict): removing a
    non-configurable own property throws a TypeError. *)
Definition delete_property (prop : string) : M JsObject unit :=
  o ← get;
  match props o !! prop with
  | None => ret tt
  | Some current =>
      if configurable current then modify (set_props (delete prop))
      else throw (TypeError "Cannot delete property")
  end.

(** [updateObjectMembers(hmrClass, newClass)]: the state is [hmrClass],
    which is mutated; [newClass] is only read.  (When both are the same
    object every step is a no-op, as it is here on equal values.) *)
Definition updateObjectMembers (newClass : JsObject) : M JsObject unit :=
  hmrClass ← get;
  let currentProperties := getOwnPropertyNames hmrClass in
  let newProperties := getOwnPropertyNames newClass in
  for_of (getOwnPropertyNames newClass) (λ prop,
    match getOwnPropertyDescriptor newClass prop with
    | Some descriptor =>
        when (configurable descriptor) (defineProperty prop descriptor)
    | None => ret tt
    end) ;;
  for_of currentProperties (λ existingProp,
    when (negb (bool_decide (existingProp ∈ newProperties)))
         (try_catch (delete_property existingProp))).

(** The bodies of the two loops of [updateObjectMembers], under names. *)
Definition copy_member (newClass : JsObject) (prop : string) : M JsObject unit :=
  match getOwnPropertyDescriptor newClass prop with
  | Some descriptor =>
      when (configurable descriptor) (defineProperty prop descriptor)
  | None => ret tt
  end.

Definition delete_stale (newProperties : list string) (existingProp : string)
    : M JsObject unit :=
  when (negb (bool_decide (existingProp ∈ newProperties)))
       (try_catch (delete_property existingProp)).

(** A caught [delete]: the property goes when it is configurable and stays
    when it is not; the statement never throws. *)
Definition cleared (t : option PropertyDescriptor) : option PropertyDescriptor :=
  match t with
  | Some c => if configurable c then None else Some c
  | None => None
  end.

(** What one own property of the target becomes, given the property of the
    same name on the target ([t]) and on the source ([s]) before the call. *)
Definition migrated (t s : option PropertyDescriptor) : option PropertyDescriptor :=
  match s with
  | Some d => if configurable d then Some d else t
  | None =>
      match t with
      | Some c => if configurable c then None else Some c
      | None => None
      end
  end.

(** No [defineProperty] of the migration can be refused: the target has no
    non-configurable property under a name that is configurable on the
    source, and it is extensible if the source brings a new name. *)
Definition migratable (hmrClass newClass : JsObject) : bool :=
  forallb (λ '(prop, descriptor),
             negb (configurable descriptor)
             || match props hmrClass !! prop with
                | Some current => configurable current
                | None => extensible hmrClass
                end)
          (map_to_list (props newClass)).

(** The Prop reading of [migratable]. *)
Definition can_define (o newClass : JsObject) : Prop :=
  ∀ k d, props newClass !! k = Some d → configurable d = true →
         match props o !! k with
         | Some c => configurable c = true
         | None => extensible o = true
         end.

(** Construction of example objects. *)
Definition member (v : JsValue) : PropertyDescriptor :=
  {| body := DataProperty v true; enumerable := true; configurable := true |}.
Definition fixed_member (v : JsValue) : PropertyDescriptor :=
  {| body := DataProperty v false; enumerable := false; configurable := false |}.
Definition object_of (l : list (string * PropertyDescriptor)) : JsObject :=
  {| props := list_to_map l; extensible := true |}.

(** The static [hotReplaceCallback] works on a class: the constructor
    object with its static members, and the object its [prototype] property
    refers to.  ([prototype] is a non-configurable own property of a
    constructor, so migration never redirects it.) *)
Record JsClass := mkClass {
  statics : JsObject;
  prototype : JsObject;
}.

(** Run [m] on the static side / on the prototype of [this]. *)
Definition on_statics {A} (m : M JsObject A) : M JsClass A :=
  λ c, let '(r, o) := m (statics c) in
       (r, {| statics := o; prototype := prototype c |}).
Definition on_prototype {A} (m : M JsObject A) : M JsClass A :=
  λ c, let '(r, o) := m (prototype c) in
       (r, {| statics := statics c; prototype := o |}).

Section StaticCallback.
(** Modelled from the spec: [finalize] is the static setup inherited from
    the properties mixin, an external collaborator; it is a parameter. *)
Variable finalize : JsClass → JsClass.

(** The two [updateObjectMembers] calls of the static callback, with
    [this] as the state. *)
Definition migrateClass (newClass : JsClass) : M JsClass unit :=
  on_statics (updateObjectMembers (statics newClass)) ;;
  on_prototype (updateObjectMembers (prototype newClass)).

(** [LitElement.hotReplaceCallback = function (newClass) {...}]: returns
    the completion, [this] and [newClass] as the call leaves them. *)
Definition hotReplaceCallback (this newClass : JsClass)
    : Completion unit * JsClass * JsClass :=
  let newClass := finalize newClass in
  let '(r, this) := (migrateClass newClass ;; modify finalize) this in
  (r, this, newClass).
End StaticCallback.

(** [after] differs from [before] only in members that [source] owns as
    configurable properties, and those are configurable on [after] too. *)
Definition writes_within (before after source : JsObject) : bool :=
  bool_decide (extensible after = extensible before)
  && forallb (λ k,
       bool_decide (props after !! k = props before !! k)
       || (match props source !! k with Some d => configurable d | None => false end
           && match props after !! k with Some d => configurable d | None => false end))
     (getOwnPropertyNames before ++ getOwnPropertyNames after).

(** Finalizing the class [y] only (re)writes members that the class
    [newClass] carries, as configurable properties. *)
Definition finalize_within (finalize : JsClass → JsClass) (y newClass : JsClass)
    : bool :=
  writes_within (statics y) (statics (finalize y)) (statics newClass)
  && writes_within (prototype y) (prototype (finalize y)) (prototype newClass).

(** An example of [finalize]: it marks the class and records, as derived
    metadata, how many members its prototype has. *)
Definition example_finalize (c : JsClass) : JsClass :=
  {| statics :=
       set_props (λ m, <["__finalized" := member (VBool true)]>
                         (<["_memberCount" :=
                              member (VNum (Z.of_nat (size (props (prototype c)))))]> m))
                 (statics c);
     prototype := prototype c |}.

(** The specification's scenario: [Old] renders "A"; [New] renders "B" and
    has a static [version]. *)
Definition Old : JsClass :=
  {| statics := object_of [("prototype", fixed_member (VRef 10));
                           ("name", member (VStr "Old"));
                           ("legacy", member (VNum 0))];
     prototype := object_of [("constructor", member (VRef 1));
                             ("render", member (VRef 11));
                             ("oldHelper", member (VRef 12));
                             ("pinnedHelper", fixed_member (VRef 13))] |}.
Definition New : JsClass :=
  {| statics := object_of [("prototype", fixed_member (VRef 20));
                           ("name", member (VStr "New"));
                           ("version", member (VNum 2))];
     prototype := object_of [("constructor", member (VRef 2));
                             ("render", member (VRef 21))] |}.

(** A target that pinned [render] with a non-configurable property. *)
Definition pinned : JsObject := object_of [("render", fixed_member (VRef 11))].
Definition replacement : JsObject := object_of [("render", member (VRef 21))].

(* ===================================================================== *)
(** * The element and its environment (lit-element.ts) *)
(* ===================================================================== *)

Definition Props := gmap string JsValue.
Definition TemplateResult := string.
Definition PromiseId := nat.

Record DomNode := mkNode {
  node_id : nat;
  tagName : string;
}.

(** The node rendered into: a shadow root or another node, with its
    element children. *)
Record RenderRoot := mkRoot {
  isShadowRoot : bool;
  children : list DomNode;
}.

(** The private fields of [LitElement], and [localName]. *)
Record LitElement := mkLitElement {
  __renderComplete : option PromiseId;
  __resolveRenderComplete : option PromiseId;
  __isInvalid : bool;
  __isChanging : bool;
  _root : option RenderRoot;
  localName : string;
}.

(** Modelled from the spec: the properties mixin is an external
    collaborator that batches property changes.  Its state: current,
    pending and previous property values, whether a flush is scheduled,
    and whether its ready hook has run (the hook is invoked before the
    first property flush: nothing is flushed before it). *)
Record PropertiesChanged := mkMixin {
  __data : Props;
  __dataPending : option Props;
  __dataOld : option Props;
  __dataInvalid : bool;
  __dataReady : bool;
}.

(** Callbacks waiting in the microtask queue. *)
Inductive Microtask :=
| ResolveRenderCompleteFalse  (* () => this.__resolveRenderComplete!(false) *)
| FlushTask.                  (* the flush the mixin scheduled *)

(** Calls that leave the element, in the order they happen. *)
Inductive Event :=
| EvMixinPropertiesChanged (props : Props) (changedProps prevProps : option Props)
| Ev_render (props : Props)
| EvTemplateRender (result : TemplateResult) (node : RenderRoot) (scopeName : string)
| Ev_didRender (props : Props) (changedProps prevProps : option Props)
| Ev_firstRendered
| EvResolve (promise : PromiseId) (value : bool)
| EvConsoleTrace (property : string) (value : JsValue)
| EvUncaught (e : JsError).

(** Everything a method of the element can read or change.  [promises]
    holds, for each promise made by [renderComplete], [None] while it is
    pending and [Some v] once resolved with [v]. *)
Record World := mkWorld {
  el : LitElement;
  mixin : PropertiesChanged;
  promises : list (option bool);
  microtasks : list Microtask;
  log : list Event;
}.

(** The methods a host subclass implements or overrides, as functions of
    their arguments: a hook returns or throws, it does not call back into
    the element.  [_createRoot] is the node the hook creates or picks. *)
Record Hooks := mkHooks {
  _shouldRender : Props → option Props → option Props → bool;
  _render : Props → Completion (option TemplateResult);
  _didRender : Props → option Props → option Props → Completion unit;
  _createRoot : RenderRoot;
}.

(** [LitElement]'s own implementations: [_shouldRender] returns true,
    [_render] throws, [_didRender] does nothing, [_createRoot] attaches an
    open shadow root. *)
Definition default_hooks : Hooks :=
  {| _shouldRender := λ _ _ _, true;
     _render := λ _, Throw (Error "_render() not implemented");
     _didRender := λ _ _ _, Normal tt;
     _createRoot := {| isShadowRoot := true; children := [] |} |}.

(** ** Field assignments *)

Definition set___renderComplete (v : option PromiseId) (e : LitElement) :=
  mkLitElement v (__resolveRenderComplete e) (__isInvalid e) (__isChanging e)
               (_root e) (localName e).
Definition set___resolveRenderComplete (v : option PromiseId) (e : LitElement) :=
  mkLitElement (__renderComplete e) v (__isInvalid e) (__isChanging e)
               (_root e) (localName e).
Definition set___isInvalid (v : bool) (e : LitElement) :=
  mkLitElement (__renderComplete e) (__resolveRenderComplete e) v (__isChanging e)
               (_root e) (localName e).
Definition set___isChanging (v : bool) (e : LitElement) :=
  mkLitElement (__renderComplete e) (__resolveRenderComplete e) (__isInvalid e) v
               (_root e) (localName e).
Definition set__root (v : option RenderRoot) (e : LitElement) :=
  mkLitElement (__renderComplete e) (__resolveRenderComplete e) (__isInvalid e)
               (__isChanging e) v (localName e).

Definition with_el (f : LitElement → LitElement) (w : World) : World :=
  mkWorld (f (el w)) (mixin w) (promises w) (microtasks w) (log w).
Definition with_mixin (f : PropertiesChanged → PropertiesChanged) (w : World) : World :=
  mkWorld (el w) (f (mixin w)) (promises w) (microtasks w) (log w).
Definition with_promises (f : list (option bool) → list (option bool)) (w : World) :=
  mkWorld (el w) (mixin w) (f (promises w)) (microtasks w) (log w).
Definition with_microtasks (f : list Microtask → list Microtask) (w : World) :=
  mkWorld (el w) (mixin w) (promises w) (f (microtasks w)) (log w).
Definition with_log (f : list Event → list Event) (w : World) :=
  mkWorld (el w) (mixin w) (promises w) (microtasks w) (f (log w)).

Definition emit (e : Event) : M World unit := modify (with_log (λ l, l ++ [e])).
Definition queueMicrotask (t : Microtask) : M World unit :=
  modify (with_microtasks (λ q, q ++ [t])).
Definition lift {S A} (c : Completion A) : M S A := λ s, (c, s).
Definition isSome {A} (o : option A) : bool :=
  match o with Some _ => true | None => false end.

(** ** Promises *)

(** [new Promise(...)]: a fresh pending promise. *)
Definition new_promise : M World PromiseId :=
  p ← gets (λ w, length (promises w));
  modify (with_promises (λ ps, ps ++ [None])) ;;
  ret p.

(** The [resolve] function of promise [p]: it settles a pending promise and
    does nothing to a settled one. *)
Definition settle (p : PromiseId) (value : bool) (ps : list (option bool)) :=
  match ps !! p with
  | Some None => <[p := Some value]> ps
  | _ => ps
  end.
Definition resolve (p : PromiseId) (value : bool) : M World unit :=
  emit (EvResolve p value) ;;
  modify (with_promises (settle p value)).

(** The closure stored in [__resolveRenderComplete] for promise [p]:
    [(value) => { this.__resolveRenderComplete = this.__renderComplete = null;
                  resolve(value); }] *)
Definition resolveRenderComplete_closure (p : PromiseId) (value : bool)
    : M World unit :=
  modify (with_el (set___renderComplete None)) ;;
  modify (with_el (set___resolveRenderComplete None)) ;;
  resolve p value.

(** [this.__resolveRenderComplete(value)]: calls whatever the field holds
    at the time of the call; calling [null] is a TypeError. *)
Definition call___resolveRenderComplete (value : bool) : M World unit :=
  r ← gets (λ w, __resolveRenderComplete (el w));
  match r with
  | Some p => resolveRenderComplete_closure p value
  | None => throw (TypeError "this.__resolveRenderComplete is not a function")
  end.

Section Lifecycle.
Variable hooks : Hooks.

(** ** Methods of [LitElement] *)

Definition _shouldPropertiesChange (_props : Props)
    (_changedProps _prevProps : option Props) : M World bool :=
  let shouldRender := _shouldRender hooks _props _changedProps _prevProps in
  r ← gets (λ w, __resolveRenderComplete (el w));
  when (negb shouldRender && isSome r) (call___resolveRenderComplete false) ;;
  ret shouldRender.

(** [render(result, node, this.localName!)]: the template renderer is
    external; the call is recorded. *)
Definition _applyRender (result : TemplateResult) (node : RenderRoot)
    : M World unit :=
  name ← gets (λ w, localName (el w));
  emit (EvTemplateRender result node name).

(** Modelled from the spec: the mixin's own change notification, an
    external call; it is recorded. *)
Definition super__propertiesChanged (props : Props)
    (changedProps prevProps : option Props) : M World unit :=
  emit (EvMixinPropertiesChanged props changedProps prevProps).

Definition _propertiesChanged (props : Props)
    (changedProps prevProps : option Props) : M World unit :=
  super__propertiesChanged props changedProps prevProps ;;
  result ← (emit (Ev_render props) ;; lift (_render hooks props));
  root ← gets (λ w, _root (el w));
  match result, root with
  | Some result, Some root => _applyRender result root
  | _, _ => ret tt
  end ;;
  (emit (Ev_didRender props changedProps prevProps) ;;
   lift (_didRender hooks props changedProps prevProps)) ;;
  r ← gets (λ w, __resolveRenderComplete (el w));
  when (isSome r) (call___resolveRenderComplete true).

(** Modelled from the spec: the mixin's flush, external.  It evaluates the
    gate [_shouldPropertiesChange] and, when the gate returns true only
    (the doc comment of the gate in lit-element.ts says so too), forgets
    the pending changes and calls [_propertiesChanged]. *)
Definition super__flushProperties : M World unit :=
  m ← gets mixin;
  let props := __data m in
  let changedProps := __dataPending m in
  let old := __dataOld m in
  b ← _shouldPropertiesChange props changedProps old;
  when b (
    modify (with_mixin (λ m,
      mkMixin (__data m) None None (__dataInvalid m) (__dataReady m))) ;;
    _propertiesChanged props changedProps old).

Definition _flushProperties : M World unit :=
  modify (with_el (set___isChanging true)) ;;
  modify (with_el (set___isInvalid false)) ;;
  super__flushProperties ;;
  modify (with_el (set___isChanging false)).

(** Modelled from the spec: the mixin's invalidation, external.  Once the
    ready hook has run it schedules the flush on the microtask queue;
    requests made before the flush runs are coalesced into that one flush.
    Before the ready hook it schedules nothing: the first flush is the one
    of the ready hook. *)
Definition super__invalidateProperties : M World unit :=
  scheduled ← gets (λ w, __dataInvalid (mixin w));
  isReady ← gets (λ w, __dataReady (mixin w));
  when (negb scheduled && isReady) (
    modify (with_mixin (λ m,
      mkMixin (__data m) (__dataPending m) (__dataOld m) true
              (__dataReady m))) ;;
    queueMicrotask FlushTask).

Definition _invalidateProperties : M World unit :=
  modify (with_el (set___isInvalid true)) ;;
  super__invalidateProperties.

Definition _requestRender : M World unit := _invalidateProperties.

(** Modelled from the spec: the mixin's per-property verdict, external;
    a property changes when the new value differs from the old one. *)
Definition super__shouldPropertyChange (property : string)
    (value old : JsValue) : bool :=
  bool_decide (old ≠ value).

Definition _shouldPropertyChange (property : string) (value old : JsValue)
    : M World bool :=
  let change := super__shouldPropertyChange property value old in
  changing ← gets (λ w, __isChanging (el w));
  when (change && changing) (emit (EvConsoleTrace property value)) ;;
  ret change.

(** Modelled from the spec: the mixin's property setter, external; an
    accepted change is recorded as pending and invalidates the element. *)
Definition _setProperty (property : string) (value : JsValue) : M World unit :=
  m ← gets mixin;
  let old := default VUndefined (__data m !! property) in
  changed ← _shouldPropertyChange property value old;
  when changed (
    modify (with_mixin (λ m,
      mkMixin (<[property := value]> (__data m))
              (Some (<[property := value]> (default ∅ (__dataPending m))))
              (Some (match default ∅ (__dataOld m) !! property with
                     | Some _ => default ∅ (__dataOld m)
                     | None => <[property := old]> (default ∅ (__dataOld m))
                     end))
              (__dataInvalid m) (__dataReady m))) ;;
    _invalidateProperties).

Definition _firstRendered : M World unit := emit Ev_firstRendered.

(** Modelled from the spec: [super.ready()] is the mixin's ready hook,
    invoked before the first property flush, which it performs
    synchronously: [ready] calls [_firstRendered] ("called after the
    element DOM is rendered for the first time") right after it.  From
    then on invalidations schedule flushes. *)
Definition super_ready : M World unit :=
  modify (with_mixin (λ m,
    mkMixin (__data m) (__dataPending m) (__dataOld m) (__dataInvalid m)
            true)) ;;
  _flushProperties.

(** Does the element host a shadow root?  It does once a [ready] has
    stored the shadow root it attached in [_root]. *)
Definition hosts_shadowRoot (e : LitElement) : bool :=
  match _root e with
  | Some root => isShadowRoot root
  | None => false
  end.

(** [this._createRoot()].  A hook that returns a shadow root has attached
    it, as the default [this.attachShadow({mode : 'open'})] does, and the
    platform refuses (NotSupportedError) to attach a shadow root to an
    element that hosts one already.  A hook that returns another node,
    such as the element itself, just returns it. *)
Definition call__createRoot : M World RenderRoot :=
  hosting ← gets (λ w, hosts_shadowRoot (el w));
  if isShadowRoot (_createRoot hooks) && hosting
  then throw (Error "NotSupportedError")
  else ret (_createRoot hooks).

Definition ready : M World unit :=
  root ← call__createRoot;
  modify (with_el (set__root (Some root))) ;;
  super_ready ;;
  _firstRendered.

(** [get renderComplete()] *)
Definition renderComplete : M World PromiseId :=
  current ← gets (λ w, __renderComplete (el w));
  match current with
  | Some p => ret p
  | None =>
      p ← new_promise;
      modify (with_el (set___resolveRenderComplete (Some p))) ;;
      modify (with_el (set___renderComplete (Some p))) ;;
      invalid ← gets (λ w, __isInvalid (el w));
      r ← gets (λ w, __resolveRenderComplete (el w));
      when (negb invalid && isSome r)
           (queueMicrotask ResolveRenderCompleteFalse) ;;
      ret p
  end.

(** ** The event loop *)

Definition run_microtask (t : Microtask) : M World unit :=
  match t with
  | ResolveRenderCompleteFalse => call___resolveRenderComplete false
  | FlushTask =>
      scheduled ← gets (λ w, __dataInvalid (mixin w));
      when scheduled (
        modify (with_mixin (λ m,
          mkMixin (__data m) (__dataPending m) (__dataOld m) false
                  (__dataReady m))) ;;
        _flushProperties)
  end.

(** What host code and the event loop do to an element. *)
Inductive Action :=
| ReadRenderComplete
| CallRequestRender
| CallReady
| SetProperty (property : string) (value : JsValue)
| NextMicrotask.

Definition perform (a : Action) : M World unit :=
  match a with
  | ReadRenderComplete => renderComplete ;; ret tt
  | CallRequestRender => _requestRender
  | CallReady => ready
  | SetProperty property value => _setProperty property value
  | NextMicrotask =>
      q ← gets microtasks;
      match q with
      | [] => ret tt
      | t :: q' => modify (with_microtasks (λ _, q')) ;; run_microtask t
      end
  end.

(** One action, run to completion; an exception nobody catches is
    reported and the element keeps the state it was left in. *)
Definition step (w : World) (a : Action) : World :=
  match perform a w with
  | (Normal _, w') => w'
  | (Throw e, w') => with_log (λ l, l ++ [EvUncaught e]) w'
  end.

Definition run (actions : list Action) (w : World) : World :=
  fold_left step actions w.
End Lifecycle.

(** A freshly constructed element: the field initialisers of the class. *)
Definition new_LitElement (name : string) : LitElement :=
  {| __renderComplete := None; __resolveRenderComplete := None;
     __isInvalid := false; __isChanging := false;
     _root := None; localName := name |}.

Definition new_World (name : string) (props : Props) : World :=
  {| el := new_LitElement name;
     mixin := mkMixin props None None false false;
     promises := []; microtasks := []; log := [] |}.

(* ===================================================================== *)
(** * The per-instance hot-replace callback (hot-replace-callback.ts) *)
(* ===================================================================== *)

(** What [supportsAdoptingStyleSheets] and the callback ask the platform. *)
Record Window := mkWindow {
  window_ShadowRoot : bool;                 (* window.ShadowRoot is defined *)
  window_ShadyCSS : option bool;            (* undefined, or its nativeShadow *)
  adoptedStyleSheets_in_Document : bool;    (* "adoptedStyleSheets" in Document.prototype *)
  replace_in_CSSStyleSheet : bool;          (* "replace" in CSSStyleSheet.prototype *)
}.

Definition supportsAdoptingStyleSheets (window : Window) : bool :=
  window_ShadowRoot window
  && match window_ShadyCSS window with
     | None => true
     | Some nativeShadow => nativeShadow
     end
  && adoptedStyleSheets_in_Document window
  && replace_in_CSSStyleSheet window.

(** [String.prototype.toLowerCase] on the letters A-Z, which is all a
    comparison with ["style"] depends on. *)
Definition ascii_toLowerCase (c : ascii) : ascii :=
  let n := nat_of_ascii c in
  if Nat.leb 65 n && Nat.leb n 90 then ascii_of_nat (n + 32) else c.

Fixpoint toLowerCase (s : string) : string :=
  match s with
  | EmptyString => EmptyString
  | String c s' => String (ascii_toLowerCase c) (toLowerCase s')
  end.

(** [node.tagName && node.tagName.toLowerCase() === "style"] *)
Definition is_style_element (node : DomNode) : bool :=
  negb (bool_decide (tagName node = "")) &&
  bool_decide (toLowerCase (tagName node) = "style").

(** [node.remove()]: the node leaves the children of the render root. *)
Definition remove (node : DomNode) : M World unit :=
  modify (with_el (λ e,
    set__root
      (match _root e with
       | Some root =>
           Some (mkRoot (isShadowRoot root)
                   (filter (λ n, node_id n ≠ node_id node) (children root)))
       | None => None
       end) e)).

(** The members the callback uses that lit-element.ts does not declare:
    [renderRoot], [adoptStyles] and [requestUpdate] on the element and
    [_getUniqueStyles] on its constructor.  A class may provide them or
    not; a member nobody provides reads as [undefined]. *)
Record Host := mkHost {
  host_renderRoot : option (M World (option RenderRoot));
  host__getUniqueStyles : option (M World unit);
  host_adoptStyles : option (M World unit);
  host_requestUpdate : option (M World unit);
}.

(** [LitElement] as lit-element.ts declares it, with the members of
    HTMLElement and the properties mixin: it has none of the four. *)
Definition LitElement_host : Host :=
  {| host_renderRoot := None; host__getUniqueStyles := None;
     host_adoptStyles := None; host_requestUpdate := None |}.

(** Reading a property and calling a method of an object: an absent
    property reads as [undefined], and calling [undefined] is a TypeError. *)
Definition read_member {A} (member : option (M World (option A)))
    : M World (option A) :=
  match member with
  | Some getter => getter
  | None => ret None
  end.
Definition call_member (name : string) (member : option (M World unit))
    : M World unit :=
  match member with
  | Some method => method
  | None => throw (TypeError (name +:+ " is not a function"))
  end.

Section InstanceCallback.
Variable window : Window.

(** [LitElement.prototype.hotReplaceCallback = function () {...}], on an
    element whose class provides [host]. *)
Definition prototype_hotReplaceCallback_on (host : Host) : M World unit :=
  when (negb (supportsAdoptingStyleSheets window)) (
    root ← read_member (host_renderRoot host);
    match root with
    | None =>
        throw (TypeError "Cannot read properties of undefined (reading 'children')")
    | Some root =>
        let nodes := children root in
        for_of nodes (λ node, when (is_style_element node) (remove node))
    end) ;;
  call_member "this.constructor._getUniqueStyles" (host__getUniqueStyles host) ;;
  root ← read_member (host_renderRoot host);
  when (window_ShadowRoot window
        && match root with Some r => isShadowRoot r | None => false end)
       (call_member "this.adoptStyles" (host_adoptStyles host)) ;;
  call_member "this.requestUpdate" (host_requestUpdate host).

(** Modelled from the spec: [_getUniqueStyles] (on the constructor) and
    [adoptStyles] are not defined in the sources; the specification has
    them recompute the class's style list and re-run style adoption.
    They are parameters acting on the element's state. *)
Variable _getUniqueStyles : M World unit.
Variable adoptStyles : M World unit.

(** Modelled from the spec: [renderRoot] is not defined in the sources;
    the specification names so the node the element renders into, which
    [LitElement] keeps in [_root]. *)
Definition renderRoot : M World (option RenderRoot) :=
  gets (λ w, _root (el w)).

(** Modelled from the spec: [requestUpdate] is not defined in the
    sources; step 4 of the specification's repairInstance describes it
    as the equivalent of requestRender(), which is [_requestRender]. *)
Definition requestUpdate : M World unit := _requestRender.

(** A class that provides the four members as the specification
    describes them. *)
Definition spec_host : Host :=
  {| host_renderRoot := Some renderRoot;
     host__getUniqueStyles := Some _getUniqueStyles;
     host_adoptStyles := Some adoptStyles;
     host_requestUpdate := Some requestUpdate |}.

(** The callback on an element of such a class. *)
Definition prototype_hotReplaceCallback : M World unit :=
  prototype_hotReplaceCallback_on spec_host.
End InstanceCallback.

(** ** Properties of computations *)

(** [m] keeps [P] true, whether it returns or throws. *)
Definition preserves {A} (P : World → Prop) (m : M World A) : Prop :=
  ∀ w r w', P w → m w = (r, w') → P w'.

(** The values the resolver of promise [p] was called with, in order. *)
Definition resolutions (p : PromiseId) (l : list Event) : list bool :=
  omap (λ e, match e with
             | EvResolve q v => if decide (q = p) then Some v else None
             | _ => None
             end) l.

Definition is_resolve (e : Event) : bool :=
  match e with EvResolve _ _ => true | _ => false end.

(** The render-completion signal is consistent: the two private fields
    agree; a promise is pending exactly when it is the one they hold; and
    the resolver of a promise has been called once, with the value the
    promise has, if the promise is settled, and never otherwise. *)
Definition signal_consistent (w : World) : Prop :=
  __resolveRenderComplete (el w) = __renderComplete (el w) ∧
  (∀ p, promises w !! p = Some None ↔ __renderComplete (el w) = Some p) ∧
  (∀ p, resolutions p (log w) = match promises w !! p with
                                | Some (Some v) => [v]
                                | _ => []
                                end).

(** Hooks of a host class that implements [_render]. *)
Definition rendering_hooks : Hooks :=
  {| _shouldRender := λ _ _ _, true;
     _render := λ _, Normal (Some "<p>hello</p>");
     _didRender := λ _ _ _, Normal tt;
     _createRoot := {| isShadowRoot := true; children := [] |} |}.

(** Hooks of a host class whose [_shouldRender] always refuses. *)
Definition vetoing_hooks : Hooks :=
  {| _shouldRender := λ _ _ _, false;
     _render := λ _, Normal (Some "<p>hello</p>");
     _didRender := λ _ _ _, Normal tt;
     _createRoot := {| isShadowRoot := true; children := [] |} |}.

(** An element that is ready, whose render was then requested and whose
    [renderComplete] was then read, under each kind of host class. *)
Definition vetoed_world : World :=
  run vetoing_hooks [CallReady; CallRequestRender; ReadRenderComplete]
      (new_World "x-el" ∅).
Definition awaited_world : World :=
  run rendering_hooks [CallReady; CallRequestRender; ReadRenderComplete]
      (new_World "x-el" ∅).

(** A rendered element whose shadow root holds an injected style element,
    on a platform without adoptable style sheets. *)
Definition styled_world : World :=
  with_el (set__root (Some (mkRoot true [mkNode 0 "STYLE"; mkNode 1 "P"])))
          (run rendering_hooks [CallReady] (new_World "x-el" ∅)).
Definition legacy_window : Window :=
  {| window_ShadowRoot := true; window_ShadyCSS := None;
     adoptedStyleSheets_in_Document := false;
     replace_in_CSSStyleSheet := false |}.

(* ===================================================================== *)
(** * The formatting helpers (lit-element.ts) *)
(* ===================================================================== *)

(** [Array.prototype.join] on an array of strings. *)
Fixpoint join (separator : string) (o : list string) : string :=
  match o with
  | [] => ""
  | [x] => x
  | x :: o' => x +:+ separator +:+ join separator o'
  end.

(** [s.split(c)] for a one-character separator. *)
Fixpoint split_on (c : ascii) (s : string) : list string :=
  match s with
  | EmptyString => [EmptyString]
  | String a s' =>
      if decide (a = c) then EmptyString :: split_on c s'
      else match split_on c s' with
           | x :: r => String a x :: r
           | [] => [String a EmptyString]
           end
  end.

(** Does [c] occur in [s]? *)
Fixpoint occurs (c : ascii) (s : string) : bool :=
  match s with
  | EmptyString => false
  | String a s' => bool_decide (a = c) || occurs c s'
  end.

Section Helpers.
(** Numbers are doubles.  The helpers only test a number for truthiness
    (neither 0, -0 nor NaN) and for [=== 0], and print it; these three
    operations of the language are parameters. *)
Variable Number : Type.
Variable number_truthy : Number → bool.
Variable number_is_zero : Number → bool.
Variable number_toString : Number → string.

(** [camelToDashCase] is imported from the Polymer library: a parameter. *)
Variable camelToDashCase : string → string.

(** Does the platform accept this string as an attribute name?
    ([setAttribute] throws an InvalidCharacterError otherwise.) *)
Variable validAttributeName : string → bool.

(** A value of an info object: [string|boolean|number]. *)
Inductive InfoValue :=
| IString (s : string)
| IBoolean (b : bool)
| INumber (n : Number).

(** An info object, [{[name: string]: string|boolean|number}], as the
    properties a [for (const name in info)] loop visits, in that order. *)
Definition Info := list (string * InfoValue).

(** Truthiness: [if (v)]. *)
Definition truthy (v : InfoValue) : bool :=
  match v with
  | IString s => negb (bool_decide (s = ""))
  | IBoolean b => b
  | INumber n => number_truthy n
  end.

(** [v === 0] and [v === ''] *)
Definition is_zero (v : InfoValue) : bool :=
  match v with INumber n => number_is_zero n | _ => false end.
Definition is_empty_string (v : InfoValue) : bool :=
  match v with IString s => bool_decide (s = "") | _ => false end.

(** [String(v)], also what a template literal does to [v]. *)
Definition toString (v : InfoValue) : string :=
  match v with
  | IString s => s
  | IBoolean b => if b then "true" else "false"
  | INumber n => number_toString n
  end.

(** [classString(classInfo)] *)
Definition classString (classInfo : Info) : string :=
  let o :=
    fold_left (λ o '(name, v), if truthy v then o ++ [name] else o)
              classInfo [] in
  join " " o.

(** [styleString(styleInfo)] *)
Definition styleString (styleInfo : Info) : string :=
  let o :=
    fold_left (λ o '(name, v),
                 if truthy v || is_zero v
                 then o ++ [camelToDashCase name +:+ ": " +:+ toString v]
                 else o)
              styleInfo [] in
  join "; " o.

(** ** [renderAttributes] *)

(** The calls that change an element's attributes. *)
Inductive AttributeCall :=
| SetAttribute (name value : string)
| RemoveAttribute (name : string).

(** An HTML element, as far as attributes go: the attributes it has, by
    name, and the mutating calls made so far. *)
Record Element := mkElement {
  attributes : gmap string string;
  calls : list AttributeCall;
}.

(** The attribute methods of an HTML element.  They lower-case the name
    (A-Z only); [setAttribute] first rejects what is not a name. *)
Definition getAttribute (a : string) : M Element (option string) :=
  gets (λ e, attributes e !! toLowerCase a).

Definition hasAttribute (a : string) : M Element bool :=
  gets (λ e, isSome (attributes e !! toLowerCase a)).

Definition setAttribute (a value : string) : M Element unit :=
  if validAttributeName a
  then modify (λ e, mkElement (<[toLowerCase a := value]> (attributes e))
                              (calls e ++ [SetAttribute a value]))
  else throw (Error "InvalidCharacterError").

Definition removeAttribute (a : string) : M Element unit :=
  modify (λ e, mkElement (delete (toLowerCase a) (attributes e))
                         (calls e ++ [RemoveAttribute a])).

(** [element.getAttribute(a) !== v]: the attribute is a string or null, so
    it is strictly equal to [v] only when [v] is that very string. *)
Definition differs (attribute : option string) (v : InfoValue) : bool :=
  match attribute, v with
  | Some s, IString s' => negb (bool_decide (s = s'))
  | _, _ => true
  end.

(** The body of the loop of [renderAttributes], for the property [a]. *)
Definition renderAttribute (a : string) (value : InfoValue) : M Element unit :=
  let v := match value with IBoolean true => IString "" | _ => value end in
  if truthy v || is_empty_string v || is_zero v then
    current ← getAttribute a;
    when (differs current v) (setAttribute a (toString v))
  else
    present ← hasAttribute a;
    when present (removeAttribute a).

(** [renderAttributes(element, attrInfo)]: the state is [element]. *)
Definition renderAttributes (attrInfo : Info) : M Element unit :=
  for_of attrInfo (λ '(a, value), renderAttribute a value).

(** The attribute value that [renderAttributes] aims at for a value of the
    info object: none for [false] and for NaN. *)
Definition attribute_for (value : InfoValue) : option string :=
  match value with
  | IBoolean true => Some ""
  | IBoolean false => None
  | IString s => Some s
  | INumber n =>
      if number_truthy n || number_is_zero n then Some (number_toString n)
      else None
  end.

(** The names with a truthy value, and the declarations [styleString]
    joins, in order. *)
Definition enabled_names (classInfo : Info) : list string :=
  (List.filter (λ nv, truthy nv.2) classInfo).*1.

Definition declarations (styleInfo : Info) : list string :=
  (λ nv, camelToDashCase nv.1 +:+ ": " +:+ toString nv.2)
    <$> List.filter (λ nv, truthy nv.2 || is_zero nv.2) styleInfo.

(** The [setAttribute] calls a number entry causes on every run. *)
Definition number_calls (attrInfo : Info) : list AttributeCall :=
  omap (λ '(a, value),
          match value with
          | INumber n =>
              if number_truthy n || number_is_zero n
              then Some (SetAttribute a (number_toString n)) else None
          | _ => None
          end) attrInfo.
End Helpers.

Arguments IString {Number} s.
Arguments IBoolean {Number} b.
Arguments INumber {Number} n.
Arguments truthy {Number} number_truthy v.
Arguments is_zero {Number} number_is_zero v.
Arguments is_empty_string {Number} v.
Arguments toString {Number} number_toString v.
Arguments classString {Number} number_truthy classInfo.
Arguments styleString {Number} number_truthy number_is_zero number_toString
  camelToDashCase styleInfo.
Arguments differs {Number} attribute v.
Arguments renderAttribute {Number} number_truthy number_is_zero number_toString
  validAttributeName a value.
Arguments renderAttributes {Number} number_truthy number_is_zero
  number_toString validAttributeName attrInfo.
Arguments attribute_for {Number} number_truthy number_is_zero number_toString
  value.
Arguments enabled_names {Number} number_truthy classInfo.
Arguments declarations {Number} number_truthy number_is_zero number_toString
  camelToDashCase styleInfo.
Arguments number_calls {Number} number_truthy number_is_zero number_toString
  attrInfo.

(** Integers as numbers, for examples. *)
Definition Z_truthy (n : Z) : bool := negb (bool_decide (n = 0%Z)).
Definition Z_is_zero (n : Z) : bool := bool_decide (n = 0%Z).
Definition Z_toString (n : Z) : string := pretty n.

(** Polymer's [camelToDashCase] on ASCII letters: a dash before every
    capital, then lower case. *)
Fixpoint dash_capitals (s : string) : string :=
  match s with
  | EmptyString => EmptyString
  | String c s' =>
      let n := nat_of_ascii c in
      if Nat.leb 65 n && Nat.leb n 90
      then String "-" (String (ascii_toLowerCase c) (dash_capitals s'))
      else String c (dash_capitals s')
  end.

Definition simple_name (s : string) : bool :=
  negb (bool_decide (s = "")) && negb (occurs " " s).

Definition example_attrInfo : Info Z :=
  [("hidden", IBoolean true); ("title", IString "hello");
   ("tabindex", INumber 0%Z); ("disabled", IBoolean false)].
Definition example_element : Element :=
  {| attributes := {["disabled" := ""; "id" := "x"]}; calls := [] |}.

(** [example_element] after [renderAttributes] with [example_attrInfo]. *)
Definition rendered_element : Element :=
  (renderAttributes Z_truthy Z_is_zero Z_toString simple_name example_attrInfo
     example_element).2.

(* ===================================================================== *)
(** * More about the lifecycle *)
(* ===================================================================== *)

#[global] Instance Microtask_eq_dec : EqDecision Microtask.
Proof. solve_decision. Defined.

(** Hooks that never throw. *)
Definition hooks_return (hooks : Hooks) : Prop :=
  (∀ props, ∃ result, _render hooks props = Normal result) ∧
  (∀ props changedProps prevProps,
     _didRender hooks props changedProps prevProps = Normal tt).

(** How many flushes wait in the microtask queue. *)
Definition flushes_queued (q : list Microtask) : nat :=
  length (List.filter (λ t, bool_decide (t = FlushTask)) q).

(** The trace of [_shouldPropertyChange], and events other than it and
    than the call of [_firstRendered]. *)
Definition is_trace (e : Event) : bool :=
  match e with EvConsoleTrace _ _ => true | _ => false end.
Definition flush_event (e : Event) : bool :=
  match e with
  | EvConsoleTrace _ _ | Ev_firstRendered | EvUncaught _ => false
  | _ => true
  end.

(** Does the platform refuse the shadow root [ready] asks for? *)
Definition attach_refused (hooks : Hooks) (w : World) : bool :=
  isShadowRoot (_createRoot hooks) && hosts_shadowRoot (el w).

(** The element as [ready] hands it to the first flush, and as a flush
    callback hands it to its flush, [q] being the rest of the queue. *)
Definition ready_start (hooks : Hooks) (w : World) : World :=
  with_mixin (λ m, mkMixin (__data m) (__dataPending m) (__dataOld m)
                           (__dataInvalid m) true)
    (with_el (set__root (Some (_createRoot hooks))) w).
Definition flush_start (q : list Microtask) (w : World) : World :=
  with_mixin (λ m, mkMixin (__data m) (__dataPending m) (__dataOld m)
                           false (__dataReady m))
    (with_microtasks (λ _, q) w).

(** The element's view of invalidation agrees with the mixin's schedule.
    Once the ready hook has run, an invalid element has a flush scheduled;
    before it nothing is scheduled and there is no render root; and the
    queue holds one flush when the mixin has scheduled one and none
    otherwise. *)
Definition schedule_consistent (w : World) : Prop :=
  (__dataReady (mixin w) = true → __isInvalid (el w) = true →
   __dataInvalid (mixin w) = true) ∧
  (__dataReady (mixin w) = false →
   __dataInvalid (mixin w) = false ∧ _root (el w) = None) ∧
  flushes_queued (microtasks w) = (if __dataInvalid (mixin w) then 1 else 0).

(** Somebody will settle the pending promise: its deferred callback is
    queued, or the element is invalid (and so, once ready, has a flush
    scheduled). *)
Definition signal_awaited (w : World) : Prop :=
  __renderComplete (el w) ≠ None →
  ResolveRenderCompleteFalse ∈ microtasks w ∨ __isInvalid (el w) = true.

(** What a flush leaves alone, and the events it adds to the log [l0]. *)
Definition flush_frame (l0 : list Event) (q : list Microtask)
    (scheduled isReady : bool) (root : option RenderRoot) (n : nat)
    (w : World) : Prop :=
  microtasks w = q ∧ __dataInvalid (mixin w) = scheduled ∧
  __dataReady (mixin w) = isReady ∧
  __isInvalid (el w) = false ∧ _root (el w) = root ∧
  length (promises w) = n ∧
  ∃ events, log w = l0 ++ events ∧ Forall (λ e, flush_event e = true) events.

(** No flush is in progress and no trace was ever logged. *)
Definition quiet (w : World) : Prop :=
  __isChanging (el w) = false ∧ Forall (λ e, is_trace e = false) (log w).

(** The three invariants together, for hooks that return. *)
Definition settled_or_awaited (w : World) : Prop :=
  signal_consistent w ∧ schedule_consistent w ∧ signal_awaited w.

(** A class whose prototype pinned [render], and its replacement. *)
Definition Pinned : JsClass := {| statics := statics Old; prototype := pinned |}.
Definition Replacement : JsClass :=
  {| statics := statics New; prototype := replacement |}.

(* ===================================================================== *)
(** * Member migration: what [updateObjectMembers] leaves on the target *)
(* ===================================================================== *)

Lemma getOwnPropertyNames_spec (o : JsObject) (k : string) :
  k ∈ getOwnPropertyNames o ↔ is_Some (props o !! k).
Proof.
  unfold getOwnPropertyNames. rewrite list_elem_of_fmap. split.
  - intros [[k' d] [-> Hin]]. apply elem_of_map_to_list in Hin. eauto.
  - intros [d Hd]. exists (k, d). split; [done|]. by apply elem_of_map_to_list.
Qed.

Lemma updateObjectMembers_unfold (newClass hmrClass : JsObject) :
  updateObjectMembers newClass hmrClass =
  (for_of (getOwnPropertyNames newClass) (copy_member newClass) ;;
   for_of (getOwnPropertyNames hmrClass)
          (delete_stale (getOwnPropertyNames newClass))) hmrClass.
Proof. reflexivity. Qed.

(** ** [defineProperty] and [delete] on one property *)

Lemma defineProperty_result (prop : string) (d : PropertyDescriptor)
    (o : JsObject) (r : Completion unit) (o' : JsObject) :
  defineProperty prop d o = (r, o') →
  (∃ e, r = Throw e ∧ o' = o) ∨ (r = Normal tt ∧ o' = set_props (insert prop d) o).
Proof.
  unfold defineProperty, bind, get, modify, throw.
  destruct (props o !! prop) as [c|].
  - destruct (configurable c || compatible_redefinition c d);
      intros [= <- <-]; eauto.
  - destruct (extensible o); intros [= <- <-]; eauto.
Qed.

Lemma defineProperty_accepted (prop : string) (d : PropertyDescriptor)
    (o : JsObject) :
  match props o !! prop with
  | Some c => configurable c = true
  | None => extensible o = true
  end →
  defineProperty prop d o = (Normal tt, set_props (insert prop d) o).
Proof.
  unfold defineProperty, bind, get, modify.
  destruct (props o !! prop) as [c|]; intros ->; reflexivity.
Qed.

Lemma defineProperty_refused (prop : string) (d c : PropertyDescriptor)
    (o : JsObject) :
  props o !! prop = Some c → configurable c = false → configurable d = true →
  defineProperty prop d o = (Throw (TypeError "Cannot redefine property"), o).
Proof.
  unfold defineProperty, bind, get, throw, compatible_redefinition.
  intros -> -> ->. reflexivity.
Qed.

Lemma try_delete_result (prop : string) (o : JsObject) :
  ∃ o', try_catch (delete_property prop) o = (Normal tt, o') ∧
        extensible o' = extensible o ∧
        props o' !! prop = cleared (props o !! prop) ∧
        ∀ k, k ≠ prop → props o' !! k = props o !! k.
Proof.
  unfold try_catch, delete_property, bind, get, modify, throw, ret.
  destruct (props o !! prop) as [c|] eqn:Hc; simpl.
  - destruct (configurable c) eqn:Hconf; simpl.
    + eexists. split; [reflexivity|]. simpl. split; [done|]. split.
      * apply lookup_delete_eq.
      * intros k Hk. by apply lookup_delete_ne.
    + exists o. rewrite Hc. done.
  - exists o. rewrite Hc. done.
Qed.

Lemma cleared_cleared (t : option PropertyDescriptor) :
  cleared (cleared t) = cleared t.
Proof.
  destruct t as [c|]; simpl; [|done].
  destruct (configurable c) eqn:E; simpl; [done|]. by rewrite E.
Qed.

(** ** The copying loop *)

Lemma copy_member_result (newClass : JsObject) (prop : string) (o : JsObject)
    (r : Completion unit) (o' : JsObject) :
  copy_member newClass prop o = (r, o') →
  o' = o ∨
  (r = Normal tt ∧
   ∃ d, props newClass !! prop = Some d ∧ configurable d = true ∧
        o' = set_props (insert prop d) o).
Proof.
  unfold copy_member, getOwnPropertyDescriptor, when, ret.
  destruct (props newClass !! prop) as [d|] eqn:Hd; [|intros [= <- <-]; by left].
  destruct (configurable d) eqn:Hconf; [|intros [= <- <-]; by left].
  intros [(e & -> & ->)|[-> ->]]%defineProperty_result; [by left|].
  right. eauto.
Qed.

(** Whatever the outcome, a property of the target is as it was or carries
    the configurable descriptor the source has under that name. *)
Lemma copy_loop_frame (newClass : JsObject) (names : list string) :
  ∀ (o : JsObject) (r : Completion unit) (o' : JsObject),
  for_of names (copy_member newClass) o = (r, o') →
  extensible o' = extensible o ∧
  ∀ k, props o' !! k = props o !! k ∨
       ∃ d, props newClass !! k = Some d ∧ configurable d = true ∧
            props o' !! k = Some d.
Proof.
  induction names as [|x names IH]; intros o r o'; simpl.
  - intros [= <- <-]. split; [done|]. by left.
  - unfold bind at 1.
    destruct (copy_member newClass x o) as [[[]|e] o1] eqn:Hstep.
    + intros Hrest. apply IH in Hrest as [Hext Hrest].
      apply copy_member_result in Hstep as [->|(_ & d & Hd & Hconf & ->)];
        [done|].
      split; [done|]. intros k. destruct (Hrest k) as [Hk|Hk]; [|by right].
      rewrite Hk. simpl. destruct (decide (x = k)) as [->|Hne].
      * rewrite lookup_insert_eq. right. by exists d.
      * left. by rewrite lookup_insert_ne.
    + intros [= <- <-].
      apply copy_member_result in Hstep as [->|(? & _)]; [|done].
      split; [done|]. by left.
Qed.

(** When the loop completes, every configurable member of the source it
    went over is on the target. *)
Lemma copy_loop_copied (newClass : JsObject) (names : list string) :
  ∀ (o o' : JsObject),
  for_of names (copy_member newClass) o = (Normal tt, o') →
  ∀ k d, k ∈ names → props newClass !! k = Some d → configurable d = true →
         props o' !! k = Some d.
Proof.
  induction names as [|x names IH]; intros o o'; simpl.
  - intros _ k d Hin. by apply elem_of_nil in Hin.
  - unfold bind at 1.
    destruct (copy_member newClass x o) as [[[]|e] o1] eqn:Hstep; [|done].
    intros Hrest k d Hin Hd Hconf.
    apply elem_of_cons in Hin as [->|Hin]; [|by eapply IH].
    assert (props o1 !! x = Some d) as Hx.
    { revert Hstep. unfold copy_member, getOwnPropertyDescriptor, when.
      rewrite Hd, Hconf.
      intros [(e & ? & _)|[_ ->]]%defineProperty_result; [done|].
      simpl. apply lookup_insert_eq. }
    apply copy_loop_frame in Hrest as [_ Hrest].
    destruct (Hrest x) as [Hk|(d' & Hd' & _ & Hk)]; [congruence|].
    congruence.
Qed.

Lemma migratable_can_define (hmrClass newClass : JsObject) :
  migratable hmrClass newClass = true → can_define hmrClass newClass.
Proof.
  unfold migratable, can_define. intros H k d Hd Hconf.
  rewrite forallb_forall in H.
  specialize (H (k, d)). simpl in H. rewrite Hconf in H. simpl in H.
  assert (In (k, d) (map_to_list (props newClass))) as Hin.
  { apply list_elem_of_In. by apply elem_of_map_to_list. }
  apply H in Hin. by destruct (props hmrClass !! k).
Qed.

Lemma copy_loop_returns (newClass : JsObject) (names : list string) :
  ∀ o, can_define o newClass →
       ∃ o', for_of names (copy_member newClass) o = (Normal tt, o').
Proof.
  induction names as [|x names IH]; intros o Hcan; simpl.
  - by exists o.
  - unfold bind at 1.
    assert (∃ o1, copy_member newClass x o = (Normal tt, o1) ∧
                  can_define o1 newClass) as (o1 & -> & Hcan1).
    { unfold copy_member, getOwnPropertyDescriptor, when, ret.
      destruct (props newClass !! x) as [d|] eqn:Hd; [|by exists o].
      destruct (configurable d) eqn:Hconf; [|by exists o].
      rewrite defineProperty_accepted by exact (Hcan x d Hd Hconf).
      eexists. split; [done|].
      intros k d' Hd' Hconf'. simpl. destruct (decide (x = k)) as [->|Hne].
      - rewrite lookup_insert_eq. congruence.
      - rewrite lookup_insert_ne by done. exact (Hcan k d' Hd' Hconf'). }
    by apply IH.
Qed.

(** ** The clean-up loop *)

Lemma delete_stale_result (newProperties : list string) (prop : string)
    (o : JsObject) :
  ∃ o', delete_stale newProperties prop o = (Normal tt, o') ∧
        extensible o' = extensible o ∧
        props o' !! prop =
          (if bool_decide (prop ∈ newProperties) then props o !! prop
           else cleared (props o !! prop)) ∧
        ∀ k, k ≠ prop → props o' !! k = props o !! k.
Proof.
  unfold delete_stale, when, ret.
  destruct (bool_decide (prop ∈ newProperties)); simpl.
  - by exists o.
  - apply try_delete_result.
Qed.

Lemma cleanup_loop (newProperties names : list string) :
  ∀ o, ∃ o',
    for_of names (delete_stale newProperties) o = (Normal tt, o') ∧
    extensible o' = extensible o ∧
    ∀ k, props o' !! k =
         if bool_decide (k ∈ names) && negb (bool_decide (k ∈ newProperties))
         then cleared (props o !! k) else props o !! k.
Proof.
  induction names as [|x names IH]; intros o; simpl.
  - exists o. done.
  - unfold bind at 1.
    destruct (delete_stale_result newProperties x o)
      as (o1 & -> & Hext1 & Hx & Hother).
    destruct (IH o1) as (o' & -> & Hext & Hrest).
    exists o'. split; [done|]. split; [congruence|].
    intros k. rewrite Hrest.
    destruct (decide (k = x)) as [->|Hne].
    + rewrite Hx. rewrite (bool_decide_eq_true_2 (x ∈ x :: names))
        by (apply elem_of_cons; by left).
      destruct (bool_decide (x ∈ newProperties)); simpl.
      * by rewrite andb_false_r.
      * rewrite andb_true_r. rewrite cleared_cleared.
        by destruct (bool_decide (x ∈ names)).
    + rewrite Hother by done.
      assert (bool_decide (k ∈ x :: names) = bool_decide (k ∈ names)) as ->.
      { apply bool_decide_ext. rewrite elem_of_cons.
        split; [intros [?|?]; [congruence|done]|by right]. }
      done.
Qed.

(** ** The whole call *)

Lemma migrated_migrated (t s : option PropertyDescriptor) :
  migrated (migrated t s) s = migrated t s.
Proof.
  destruct s as [d|]; simpl.
  - by destruct (configurable d).
  - apply cleared_cleared.
Qed.

(** After a call that returns, each own property of the target is what
    [migrated] says, and the target is as extensible as before. *)
Lemma updateObjectMembers_lookup (newClass hmrClass hmrClass' : JsObject) :
  updateObjectMembers newClass hmrClass = (Normal tt, hmrClass') →
  extensible hmrClass' = extensible hmrClass ∧
  ∀ k, props hmrClass' !! k = migrated (props hmrClass !! k) (props newClass !! k).
Proof.
  rewrite updateObjectMembers_unfold. unfold bind at 1.
  destruct (for_of _ (copy_member newClass) hmrClass) as [[[]|e] o1] eqn:Hcopy;
    [|done].
  destruct (cleanup_loop (getOwnPropertyNames newClass)
              (getOwnPropertyNames hmrClass) o1) as (o' & -> & Hext & Hclean).
  intros [= <-].
  pose proof (copy_loop_frame _ _ _ _ _ Hcopy) as [Hext1 Hframe].
  split; [congruence|]. intros k. rewrite Hclean.
  destruct (props newClass !! k) as [d|] eqn:Hd; simpl.
  - rewrite (bool_decide_eq_true_2 (k ∈ getOwnPropertyNames newClass))
      by (apply getOwnPropertyNames_spec; eauto).
    simpl. rewrite andb_false_r.
    destruct (configurable d) eqn:Hconf.
    + eapply copy_loop_copied; eauto. apply getOwnPropertyNames_spec; eauto.
    + destruct (Hframe k) as [Hk|(d' & Hd' & Hconf' & _)]; [done|].
      congruence.
  - rewrite (bool_decide_eq_false_2 (k ∈ getOwnPropertyNames newClass))
      by (rewrite getOwnPropertyNames_spec, Hd; by intros [? ?]).
    simpl. rewrite andb_true_r.
    destruct (Hframe k) as [Hk|(d' & Hd' & _)]; [|congruence].
    rewrite Hk. case_bool_decide as Hin; [done|].
    rewrite getOwnPropertyNames_spec in Hin.
    destruct (props hmrClass !! k) as [c|] eqn:Hc; [|done].
    exfalso. apply Hin. eauto.
Qed.

Lemma updateObjectMembers_returns (newClass hmrClass : JsObject) :
  can_define hmrClass newClass →
  ∃ hmrClass', updateObjectMembers newClass hmrClass = (Normal tt, hmrClass').
Proof.
  intros Hcan. rewrite updateObjectMembers_unfold. unfold bind at 1.
  destruct (copy_loop_returns newClass (getOwnPropertyNames newClass) _ Hcan)
    as (o1 & ->).
  destruct (cleanup_loop (getOwnPropertyNames newClass)
              (getOwnPropertyNames hmrClass) o1) as (o' & -> & _).
  by exists o'.
Qed.

(** When some [defineProperty] of the migration must be refused, the call
    throws: only the [delete] is inside a [try]. *)
Lemma copy_loop_throws (newClass : JsObject) (names : list string) :
  ∀ o k d c,
    k ∈ names → props newClass !! k = Some d → configurable d = true →
    props o !! k = Some c ∧ configurable c = false
    ∨ props o !! k = None ∧ extensible o = false →
    ∃ e o', for_of names (copy_member newClass) o = (Throw e, o').
Proof.
  induction names as [|x names IH]; intros o k d c Hin Hd Hconf Hbad.
  - by apply elem_of_nil in Hin.
  - simpl. unfold bind at 1.
    destruct (copy_member newClass x o) as [[[]|e] o1] eqn:Hstep; [|eauto].
    assert (k ≠ x) as Hne.
    { intros ->. revert Hstep.
      unfold copy_member, getOwnPropertyDescriptor, when, defineProperty,
        bind, get, modify, throw, compatible_redefinition.
      rewrite Hd, Hconf.
      by destruct Hbad as [[-> ->]|[-> ->]]. }
    apply elem_of_cons in Hin as [?|Hin]; [done|].
    pose proof (copy_loop_frame newClass [x] o (Normal tt) o1) as Hframe.
    simpl in Hframe. unfold bind in Hframe. rewrite Hstep in Hframe.
    destruct (Hframe eq_refl) as [Hext _].
    apply copy_member_result in Hstep as [->|(_ & d' & _ & _ & ->)];
      [by eapply IH|].
    eapply (IH _ k d c); try done. simpl.
    by rewrite lookup_insert_ne.
Qed.

Lemma updateObjectMembers_throws (newClass hmrClass : JsObject) :
  migratable hmrClass newClass = false →
  ∃ e hmrClass', updateObjectMembers newClass hmrClass = (Throw e, hmrClass').
Proof.
  unfold migratable. intros Hm.
  assert (∃ k d, props newClass !! k = Some d ∧ configurable d = true ∧
                 match props hmrClass !! k with
                 | Some c => configurable c
                 | None => extensible hmrClass
                 end = false) as (k & d & Hd & Hconf & Hbad).
  { destruct (forallb _ _) eqn:Hall in Hm; [done|]. clear Hm.
    apply not_true_iff_false in Hall. rewrite forallb_forall in Hall.
    destruct (decide (Forall (λ kd, negb (configurable kd.2)
                 || match props hmrClass !! kd.1 with
                    | Some c => configurable c
                    | None => extensible hmrClass
                    end = true) (map_to_list (props newClass)))) as [HF|HF].
    - exfalso. apply Hall. intros [k d] Hin%list_elem_of_In.
      rewrite Forall_forall in HF. by apply (HF (k, d)).
    - apply not_Forall_Exists in HF; [|intros ?; apply _].
      apply Exists_exists in HF as ([k d] & Hin & Hkd).
      apply elem_of_map_to_list in Hin. simpl in Hkd.
      exists k, d. split; [done|].
      destruct (configurable d); simpl in Hkd; [|done].
      split; [done|]. by destruct (match props hmrClass !! k with
                                   | Some c => configurable c
                                   | None => extensible hmrClass
                                   end). }
  rewrite updateObjectMembers_unfold. unfold bind at 1.
  destruct (copy_loop_throws newClass (getOwnPropertyNames newClass) hmrClass
              k d (default d (props hmrClass !! k))) as (e & o' & ->).
  - apply getOwnPropertyNames_spec. eauto.
  - done.
  - done.
  - destruct (props hmrClass !! k) as [c|]; simpl; [left|right]; done.
  - eauto.
Qed.

Lemma JsObject_eq (o1 o2 : JsObject) :
  extensible o1 = extensible o2 →
  (∀ k, props o1 !! k = props o2 !! k) →
  o1 = o2.
Proof.
  destruct o1 as [m1 e1], o2 as [m2 e2]; simpl. intros -> Hm.
  f_equal. by apply map_eq.
Qed.

(** X18: migrating an object onto itself (hot-replacing a class by
    itself) returns and changes nothing. *)
Lemma updateObjectMembers_self (o : JsObject) :
  updateObjectMembers o o = (Normal tt, o).
Proof.
  destruct (updateObjectMembers_returns o o) as [o' Hrun].
  { intros k d Hd Hconf. by rewrite Hd. }
  rewrite Hrun. f_equal.
  apply updateObjectMembers_lookup in Hrun as [Hext Hlook].
  apply JsObject_eq; [done|]. intros k. rewrite Hlook.
  destruct (props o !! k) as [d|]; simpl; [|done].
  by destruct (configurable d).
Qed.

(** C5 as stated fails: when the target holds a non-configurable property
    under a name that is configurable on the source, [defineProperty]
    throws, the call fails, and the source's member is not on the target. *)
Lemma updateObjectMembers_refused :
  props replacement !! "render" = Some (member (VRef 21)) ∧
  configurable (member (VRef 21)) = true ∧
  updateObjectMembers replacement pinned
    = (Throw (TypeError "Cannot redefine property"), pinned) ∧
  props pinned !! "render" ≠ Some (member (VRef 21)).
Proof. vm_compute. repeat split; try reflexivity. discriminate. Qed.

(** C5, amended: when no [defineProperty] of the migration can be refused
    ([migratable]), [updateObjectMembers] returns; every configurable own
    property of the source is then on the target with the source's whole
    descriptor, and every own property of the target that the source lacks
    is gone if it was configurable and unchanged if it was not (the failed
    [delete] is caught). *)
Theorem updateObjectMembers_migrates (newClass hmrClass : JsObject) :
  migratable hmrClass newClass = true →
  ∃ hmrClass',
    updateObjectMembers newClass hmrClass = (Normal tt, hmrClass') ∧
    (∀ k d, props newClass !! k = Some d → configurable d = true →
            props hmrClass' !! k = Some d) ∧
    (∀ k c, props hmrClass !! k = Some c → props newClass !! k = None →
            props hmrClass' !! k = if configurable c then None else Some c).
Proof.
  intros Hm%migratable_can_define.
  destruct (updateObjectMembers_returns _ _ Hm) as [hmrClass' Hrun].
  exists hmrClass'. split; [done|].
  apply updateObjectMembers_lookup in Hrun as [_ Hlook].
  split.
  - intros k d Hd Hconf. rewrite Hlook, Hd. simpl. by rewrite Hconf.
  - intros k c Hc Hnone. by rewrite Hlook, Hc, Hnone.
Qed.

Lemma updateObjectMembers_migrates_witness :
  ∃ hmrClass',
    updateObjectMembers (prototype New) (prototype Old) = (Normal tt, hmrClass') ∧
    (∀ k d, props (prototype New) !! k = Some d → configurable d = true →
            props hmrClass' !! k = Some d) ∧
    (∀ k c, props (prototype Old) !! k = Some c → props (prototype New) !! k = None →
            props hmrClass' !! k = if configurable c then None else Some c).
Proof. apply updateObjectMembers_migrates. vm_compute. reflexivity. Defined.

(** However the call ends, a name the source owns is, on the target, as
    it was or as the source has it. *)
Lemma updateObjectMembers_shared_lookup (newClass hmrClass : JsObject)
    (k : string) (r : Completion unit) (hmrClass' : JsObject) :
  is_Some (props newClass !! k) →
  updateObjectMembers newClass hmrClass = (r, hmrClass') →
  props hmrClass' !! k = props hmrClass !! k ∨
  ∃ d, props newClass !! k = Some d ∧ configurable d = true ∧
       props hmrClass' !! k = Some d.
Proof.
  intros Hnew. rewrite updateObjectMembers_unfold. unfold bind at 1.
  destruct (for_of _ (copy_member newClass) hmrClass) as [r1 o1] eqn:Hcopy.
  pose proof (copy_loop_frame _ _ _ _ _ Hcopy) as [_ Hframe].
  destruct r1 as [[]|e].
  - destruct (cleanup_loop (getOwnPropertyNames newClass)
                (getOwnPropertyNames hmrClass) o1) as (o' & -> & _ & Hclean).
    intros [= <- <-]. rewrite Hclean.
    rewrite (bool_decide_eq_true_2 (k ∈ getOwnPropertyNames newClass))
      by (by apply getOwnPropertyNames_spec).
    simpl. rewrite andb_false_r. apply Hframe.
  - intros [= <- <-]. apply Hframe.
Qed.

(** C10: a name that is an own property of both objects is still an own
    property of the target after [updateObjectMembers], however the call
    ends; and when the copy was skipped because the source's descriptor is
    not configurable, the target's property is untouched. *)
Theorem updateObjectMembers_keeps_shared (newClass hmrClass : JsObject)
    (k : string) :
  is_Some (props newClass !! k) →
  is_Some (props hmrClass !! k) →
  is_Some (props (updateObjectMembers newClass hmrClass).2 !! k) ∧
  (∀ d, props newClass !! k = Some d → configurable d = false →
        props (updateObjectMembers newClass hmrClass).2 !! k = props hmrClass !! k).
Proof.
  intros Hnew Hold.
  destruct (updateObjectMembers newClass hmrClass) as [r o'] eqn:Hrun. simpl.
  destruct (updateObjectMembers_shared_lookup _ _ _ _ _ Hnew Hrun)
    as [->|(d & Hd & Hconf & ->)].
  - split; [done|]. done.
  - split; [eauto|]. intros d' Hd' Hconf'. congruence.
Qed.

Lemma updateObjectMembers_keeps_shared_witness :
  is_Some (props (updateObjectMembers (statics New) (statics Old)).2 !! "prototype") ∧
  (∀ d, props (statics New) !! "prototype" = Some d → configurable d = false →
        props (updateObjectMembers (statics New) (statics Old)).2 !! "prototype"
        = props (statics Old) !! "prototype").
Proof.
  apply updateObjectMembers_keeps_shared; vm_compute; eauto.
Defined.

(* ===================================================================== *)
(** * The static callback applied twice *)
(* ===================================================================== *)

Lemma writes_within_spec (before after source : JsObject) :
  writes_within before after source = true →
  extensible after = extensible before ∧
  ∀ k, props after !! k = props before !! k ∨
       ((∃ d, props source !! k = Some d ∧ configurable d = true) ∧
        (∃ d, props after !! k = Some d ∧ configurable d = true)).
Proof.
  unfold writes_within. intros [Hext Hall]%andb_true_iff.
  apply bool_decide_eq_true_1 in Hext. split; [done|]. intros k.
  rewrite forallb_forall in Hall.
  destruct (props before !! k) as [b|] eqn:Hb, (props after !! k) as [a|] eqn:Ha;
    try (by left).
  all: assert (In k (getOwnPropertyNames before ++ getOwnPropertyNames after))
         as Hin
         by (apply in_or_app; rewrite <- !list_elem_of_In,
               !getOwnPropertyNames_spec, Hb, Ha; eauto).
  all: apply Hall in Hin; rewrite Hb, Ha in Hin.
  all: apply orb_true_iff in Hin as [Heq%bool_decide_eq_true_1|Hin]; [by left|].
  all: apply andb_true_iff in Hin as [Hs Ha'].
  all: destruct (props source !! k) as [d|]; [|done].
  all: try done.
  all: right; split; eauto.
Qed.

(** Migrating again from the same source, after a change confined to
    configurable members of the source, gives the first result back. *)
Lemma updateObjectMembers_again (newClass hmrClass y after : JsObject) :
  updateObjectMembers newClass hmrClass = (Normal tt, y) →
  writes_within y after newClass = true →
  updateObjectMembers newClass after = (Normal tt, y).
Proof.
  intros Hrun [Hext Hw]%writes_within_spec.
  apply updateObjectMembers_lookup in Hrun as [_ Hy].
  assert (can_define after newClass) as Hcan.
  { intros k d Hd Hconf.
    destruct (Hw k) as [Hk|[_ (a & -> & Ha)]]; [|done].
    rewrite Hk, Hy, Hd. simpl. by rewrite Hconf. }
  destruct (updateObjectMembers_returns _ _ Hcan) as [y2 Hrun2].
  rewrite Hrun2. f_equal.
  apply updateObjectMembers_lookup in Hrun2 as [Hext2 Hy2].
  apply JsObject_eq; [congruence|]. intros k. rewrite Hy2.
  destruct (Hw k) as [Hk|[(d & Hd & Hconf) _]].
  - by rewrite Hk, Hy, migrated_migrated.
  - rewrite Hy, Hd. simpl. by rewrite Hconf.
Qed.

Lemma migrateClass_inv (newClass this y : JsClass) :
  migrateClass newClass this = (Normal tt, y) →
  updateObjectMembers (statics newClass) (statics this) = (Normal tt, statics y) ∧
  updateObjectMembers (prototype newClass) (prototype this)
    = (Normal tt, prototype y).
Proof.
  unfold migrateClass, bind, on_statics, on_prototype.
  destruct (updateObjectMembers (statics newClass) (statics this))
    as [[[]|e] s]; simpl; [|done].
  destruct (updateObjectMembers (prototype newClass) (prototype this))
    as [[[]|e] p]; simpl; [|done].
  by intros [= <-].
Qed.

Lemma migrateClass_intro (newClass this : JsClass) (s p : JsObject) :
  updateObjectMembers (statics newClass) (statics this) = (Normal tt, s) →
  updateObjectMembers (prototype newClass) (prototype this) = (Normal tt, p) →
  migrateClass newClass this = (Normal tt, mkClass s p).
Proof.
  unfold migrateClass, bind, on_statics, on_prototype.
  intros -> Hp. simpl. by rewrite Hp.
Qed.

(** The specification's scenario: after the callback, [Old]'s prototype
    has [New]'s [render], [Old] has the static [version], and what [Old]
    alone had is gone unless it was not configurable. *)
Example hotReplaceCallback_Old_New :
  let this := (hotReplaceCallback example_finalize Old New).1.2 in
  props (prototype this) !! "render" = Some (member (VRef 21)) ∧
  props (statics this) !! "version" = Some (member (VNum 2)) ∧
  props (statics this) !! "legacy" = None ∧
  props (prototype this) !! "oldHelper" = None ∧
  props (prototype this) !! "pinnedHelper" = Some (fixed_member (VRef 13)) ∧
  props (statics this) !! "prototype" = Some (fixed_member (VRef 10)).
Proof. vm_compute. repeat split; reflexivity. Qed.

(** C8: [hotReplaceCallback] applied a second time with the same (by then
    finalized) [newClass] returns and leaves the old class and its
    prototype exactly as the first application left them.  [finalize] is
    the mixin's; it is assumed to be a one-time setup (finalizing the
    finalized [newClass] changes nothing) whose rewrites on the migrated
    old class stay within the configurable members of [newClass]. *)
Theorem hotReplaceCallback_idempotent (finalize : JsClass → JsClass)
    (this newClass this1 new1 : JsClass) :
  hotReplaceCallback finalize this newClass = (Normal tt, this1, new1) →
  finalize new1 = new1 →
  (∀ y, migrateClass new1 this = (Normal tt, y) →
        finalize_within finalize y new1 = true) →
  hotReplaceCallback finalize this1 new1 = (Normal tt, this1, new1).
Proof.
  unfold hotReplaceCallback. unfold bind at 1, modify.
  destruct (migrateClass (finalize newClass) this) as [[[]|e] y] eqn:Hmig;
    [|done].
  intros [= <- <-] Hfin Hwithin. rewrite Hfin.
  specialize (Hwithin y Hmig).
  apply andb_true_iff in Hwithin as [Hs Hp].
  apply migrateClass_inv in Hmig as [Hms Hmp].
  pose proof (updateObjectMembers_again _ _ _ _ Hms Hs) as Hs2.
  pose proof (updateObjectMembers_again _ _ _ _ Hmp Hp) as Hp2.
  unfold bind. rewrite (migrateClass_intro _ _ _ _ Hs2 Hp2).
  by destruct y.
Qed.

Lemma hotReplaceCallback_idempotent_witness :
  hotReplaceCallback example_finalize
    (hotReplaceCallback example_finalize Old New).1.2
    (hotReplaceCallback example_finalize Old New).2
  = (Normal tt,
     (hotReplaceCallback example_finalize Old New).1.2,
     (hotReplaceCallback example_finalize Old New).2).
Proof.
  apply (hotReplaceCallback_idempotent example_finalize Old New).
  - vm_compute. reflexivity.
  - vm_compute. reflexivity.
  - intros y Hy. vm_compute in Hy. injection Hy as <-. vm_compute. reflexivity.
Defined.

(* ===================================================================== *)
(** * The render lifecycle *)
(* ===================================================================== *)

(** ** Invariants, method by method *)

Section Preservation.
Context {P : World → Prop}.

Lemma preserves_ret {A} (a : A) : preserves P (ret a).
Proof. by intros w r w' HP [= <- <-]. Qed.

Lemma preserves_throw {A} (e : JsError) : preserves P (throw (A := A) e).
Proof. by intros w r w' HP [= <- <-]. Qed.

Lemma preserves_lift {A} (c : Completion A) : preserves P (lift c).
Proof. by intros w r w' HP [= <- <-]. Qed.

Lemma preserves_gets {A} (f : World → A) : preserves P (gets f).
Proof. by intros w r w' HP [= <- <-]. Qed.

Lemma preserves_modify (f : World → World) :
  (∀ w, P w → P (f w)) → preserves P (modify f).
Proof. intros Hf w r w' HP [= <- <-]. by apply Hf. Qed.

Lemma preserves_bind {A B} (m : M World A) (k : A → M World B) :
  preserves P m → (∀ a, preserves P (k a)) → preserves P (bind m k).
Proof.
  intros Hm Hk w r w' HP. unfold bind.
  destruct (m w) as [[a|e] w1] eqn:Hrun.
  - intros Hrest. eapply Hk; [|exact Hrest]. eapply Hm; eauto.
  - intros [= <- <-]. eapply Hm; eauto.
Qed.

Lemma preserves_when (c : bool) (m : M World unit) :
  preserves P m → preserves P (when c m).
Proof. destruct c; [done|]. intros _. apply preserves_ret. Qed.

Lemma preserves_for_of {A} (l : list A) (body : A → M World unit) :
  (∀ x, preserves P (body x)) → preserves P (for_of l body).
Proof.
  intros Hbody. induction l as [|x l IH]; simpl.
  - apply preserves_ret.
  - apply preserves_bind; [apply Hbody|by intros _].
Qed.
End Preservation.

(** Decompose a method body into its statements. *)
Ltac preserves_step :=
  lazymatch goal with
  | |- preserves _ (bind _ _) => apply preserves_bind; [|intros ?]
  | |- preserves _ (when _ _) => apply preserves_when
  | |- preserves _ (ret _) => apply preserves_ret
  | |- preserves _ (throw _) => apply preserves_throw
  | |- preserves _ (lift _) => apply preserves_lift
  | |- preserves _ (gets _) => apply preserves_gets
  | |- preserves _ (match ?x with _ => _ end) => destruct x
  end.

Lemma resolutions_app (p : PromiseId) (l1 l2 : list Event) :
  resolutions p (l1 ++ l2) = resolutions p l1 ++ resolutions p l2.
Proof. apply omap_app. Qed.

Lemma resolutions_other (p : PromiseId) (l : list Event) (e : Event) :
  is_resolve e = false → resolutions p (l ++ [e]) = resolutions p l.
Proof.
  intros He. rewrite resolutions_app.
  destruct e; try discriminate; simpl; by rewrite app_nil_r.
Qed.

(** The statements that do not touch the signal. *)
Lemma signal_consistent_frame (w w' : World) :
  __renderComplete (el w') = __renderComplete (el w) →
  __resolveRenderComplete (el w') = __resolveRenderComplete (el w) →
  promises w' = promises w →
  (∀ p, resolutions p (log w') = resolutions p (log w)) →
  signal_consistent w → signal_consistent w'.
Proof.
  unfold signal_consistent. intros -> -> -> Hlog (? & ? & Hres).
  split; [done|]. split; [done|]. intros p. by rewrite Hlog.
Qed.

Lemma signal_emit (e : Event) :
  is_resolve e = false → preserves signal_consistent (emit e).
Proof.
  intros He. apply preserves_modify. intros w.
  apply signal_consistent_frame; try done.
  intros p. by apply resolutions_other.
Qed.

Lemma signal_queueMicrotask (t : Microtask) :
  preserves signal_consistent (queueMicrotask t).
Proof.
  apply preserves_modify. intros w. by apply signal_consistent_frame.
Qed.

Lemma signal_with_mixin (f : PropertiesChanged → PropertiesChanged) :
  preserves signal_consistent (modify (with_mixin f)).
Proof.
  apply preserves_modify. intros w. by apply signal_consistent_frame.
Qed.

Lemma signal_with_microtasks (f : list Microtask → list Microtask) :
  preserves signal_consistent (modify (with_microtasks f)).
Proof.
  apply preserves_modify. intros w. by apply signal_consistent_frame.
Qed.

Lemma signal_set_isChanging (b : bool) :
  preserves signal_consistent (modify (with_el (set___isChanging b))).
Proof.
  apply preserves_modify. intros w. by apply signal_consistent_frame.
Qed.

Lemma signal_set_isInvalid (b : bool) :
  preserves signal_consistent (modify (with_el (set___isInvalid b))).
Proof.
  apply preserves_modify. intros w. by apply signal_consistent_frame.
Qed.

Lemma signal_set_root (r : option RenderRoot) :
  preserves signal_consistent (modify (with_el (set__root r))).
Proof.
  apply preserves_modify. intros w. by apply signal_consistent_frame.
Qed.

(** Calling the stored resolver settles the pending promise and empties
    both fields in one go. *)
Lemma signal_call_resolver (value : bool) :
  preserves signal_consistent (call___resolveRenderComplete value).
Proof.
  intros w r w' (Hfields & Hpending & Hres).
  unfold call___resolveRenderComplete, resolveRenderComplete_closure,
    resolve, emit, bind, gets, modify, throw.
  destruct (__resolveRenderComplete (el w)) as [p|] eqn:Hr;
    intros [= <- <-].
  2: { split; [congruence|done]. }
  assert (promises w !! p = Some None) as Hp by (apply Hpending; congruence).
  assert (p < length (promises w)) as Hlt by (by eapply lookup_lt_Some).
  split; [done|]. simpl. unfold settle. rewrite Hp. split.
  - intros q. split; [|done].
    destruct (decide (q = p)) as [->|Hne].
    + by rewrite list_lookup_insert_eq.
    + rewrite list_lookup_insert_ne by done. intros Hq%Hpending. congruence.
  - intros q. rewrite resolutions_app, Hres. simpl.
    destruct (decide (p = q)) as [->|Hne].
    + by rewrite Hp, list_lookup_insert_eq.
    + rewrite list_lookup_insert_ne by done. by rewrite app_nil_r.
Qed.

Lemma lookup_snoc_pending (ps : list (option bool)) (q : nat) :
  (ps ++ [None]) !! q = if decide (q = length ps) then Some None else ps !! q.
Proof.
  case_decide as Hq.
  - subst q. by rewrite lookup_app_r, Nat.sub_diag by lia.
  - destruct (decide (q < length ps)).
    + by rewrite lookup_app_l.
    + rewrite !lookup_ge_None_2; [done|lia|rewrite length_app; simpl; lia].
Qed.

(** Reading [renderComplete] returns the pending promise or makes the only
    pending one. *)
Lemma signal_renderComplete : preserves signal_consistent renderComplete.
Proof.
  intros w r w' (Hfields & Hpending & Hres).
  unfold renderComplete, new_promise, queueMicrotask, when, bind, gets,
    modify, ret.
  destruct (__renderComplete (el w)) as [p|] eqn:Hc.
  - intros [= <- <-]. split; [congruence|]. split; [|done].
    intros q. rewrite Hc. apply Hpending.
  - simpl. destruct (__isInvalid (el w)); simpl; intros [= <- <-].
    all: split; [done|]; simpl; split; intros q.
    all: rewrite lookup_snoc_pending; case_decide as Hq.
    + by subst q.
    + rewrite Hpending. split; [done|congruence].
    + subst q. by rewrite Hres, lookup_ge_None_2.
    + apply Hres.
    + by subst q.
    + rewrite Hpending. split; [done|congruence].
    + subst q. by rewrite Hres, lookup_ge_None_2.
    + apply Hres.
Qed.

Create HintDb signal.
#[local] Hint Resolve signal_queueMicrotask signal_with_mixin
  signal_with_microtasks signal_set_isChanging signal_set_isInvalid
  signal_set_root signal_call_resolver signal_renderComplete : signal.
#[local] Hint Extern 1 (preserves signal_consistent (emit _)) =>
  apply signal_emit; reflexivity : signal.

Ltac preserves_signal :=
  repeat first [ solve [eauto with signal] | preserves_step ].

Section LifecycleInvariant.
Variable hooks : Hooks.

Lemma signal_shouldPropertiesChange (props : Props) (c o : option Props) :
  preserves signal_consistent (_shouldPropertiesChange hooks props c o).
Proof. unfold _shouldPropertiesChange. preserves_signal. Qed.

Lemma signal_propertiesChanged (props : Props) (c o : option Props) :
  preserves signal_consistent (_propertiesChanged hooks props c o).
Proof.
  unfold _propertiesChanged, super__propertiesChanged, _applyRender.
  preserves_signal.
Qed.

Lemma signal_flushProperties :
  preserves signal_consistent (_flushProperties hooks).
Proof.
  pose proof signal_shouldPropertiesChange.
  pose proof signal_propertiesChanged.
  unfold _flushProperties, super__flushProperties. preserves_signal.
Qed.

Lemma signal_invalidateProperties :
  preserves signal_consistent _invalidateProperties.
Proof.
  unfold _invalidateProperties, super__invalidateProperties.
  preserves_signal.
Qed.

Lemma signal_perform (a : Action) :
  preserves signal_consistent (perform hooks a).
Proof.
  pose proof signal_flushProperties.
  pose proof signal_invalidateProperties.
  destruct a; simpl;
    unfold _requestRender, ready, call__createRoot, super_ready,
      _firstRendered, _setProperty, _shouldPropertyChange, run_microtask.
  all: preserves_signal.
Qed.

Lemma signal_step (w : World) (a : Action) :
  signal_consistent w → signal_consistent (step hooks w a).
Proof.
  intros Hw. unfold step.
  destruct (perform hooks a w) as [[[]|e] w'] eqn:Hrun.
  - by eapply signal_perform.
  - eapply signal_consistent_frame; [..|by eapply signal_perform]; try done.
  intros p. by apply resolutions_other.
Qed.

Lemma signal_run (actions : list Action) (w : World) :
  signal_consistent w → signal_consistent (run hooks actions w).
Proof.
  revert w. induction actions as [|a actions IH]; intros w Hw; simpl.
  - done.
  - apply IH. by apply signal_step.
Qed.
End LifecycleInvariant.

Lemma signal_new_World (name : string) (props : Props) :
  signal_consistent (new_World name props).
Proof.
  split; [done|]. split; intros p; simpl; [by rewrite lookup_nil|done].
Qed.

(** X19: in every execution the resolver of a promise is called at most
    once, and a settled promise has the value of that call. *)
Lemma resolver_called_at_most_once (hooks : Hooks) (actions : list Action)
    (name : string) (props : Props) (p : PromiseId) :
  let w := run hooks actions (new_World name props) in
  (length (resolutions p (log w)) ≤ 1)%nat ∧
  ∀ v, promises w !! p = Some (Some v) → resolutions p (log w) = [v].
Proof.
  intros w.
  assert (signal_consistent w) as (_ & _ & Hres)
    by apply signal_run, signal_new_World.
  rewrite Hres. split.
  - destruct (promises w !! p) as [[v|]|]; simpl; lia.
  - by intros v ->.
Qed.

(** ** The gate: [_shouldPropertiesChange] *)

(** C4: when [_shouldRender] returns false, the gating check itself
    resolves the pending promise, if there is one, with false: the call of
    the resolver is the only event, nothing is queued for later, and the
    two fields are emptied.  The whole flush of such a cycle adds nothing
    more: no call of the template renderer. *)
Theorem shouldRender_veto (hooks : Hooks) (w : World) :
  _shouldRender hooks (__data (mixin w)) (__dataPending (mixin w))
                (__dataOld (mixin w)) = false →
  ∃ w1 w2,
    _shouldPropertiesChange hooks (__data (mixin w)) (__dataPending (mixin w))
                            (__dataOld (mixin w)) w = (Normal false, w1) ∧
    log w1 = log w ++ match __resolveRenderComplete (el w) with
                      | Some p => [EvResolve p false]
                      | None => []
                      end ∧
    microtasks w1 = microtasks w ∧
    __resolveRenderComplete (el w1) = None ∧
    (∀ p, __resolveRenderComplete (el w) = Some p →
          __renderComplete (el w1) = None ∧
          (promises w !! p = Some None → promises w1 !! p = Some (Some false))) ∧
    _flushProperties hooks w = (Normal tt, w2) ∧
    log w2 = log w1 ∧ promises w2 = promises w1 ∧ microtasks w2 = microtasks w.
Proof.
  intros Hveto.
  unfold _flushProperties, super__flushProperties, _shouldPropertiesChange,
    call___resolveRenderComplete, resolveRenderComplete_closure, resolve,
    emit, when, bind, gets, modify, ret; simpl.
  rewrite Hveto; simpl.
  destruct (__resolveRenderComplete (el w)) as [p|] eqn:Hr; simpl.
  - rewrite Hr. eexists _, _.
    do 4 (split; [reflexivity|]). split.
    { intros q [= <-]. split; [reflexivity|]. simpl. intros Hp.
      unfold settle. rewrite Hp.
      apply list_lookup_insert_eq. by eapply lookup_lt_Some. }
    by split.
  - eexists _, _. split; [reflexivity|].
    split; [by rewrite app_nil_r|]. do 2 (split; [done|]).
    split; [done|]. by split.
Qed.

Lemma shouldRender_veto_witness :
  ∃ w1 w2,
    _shouldPropertiesChange vetoing_hooks ∅ None None vetoed_world
      = (Normal false, w1) ∧
    log w1 = [Ev_firstRendered] ++ [EvResolve 0 false] ∧
    microtasks w1 = [FlushTask] ∧
    __resolveRenderComplete (el w1) = None ∧
    (∀ p, Some 0 = Some p →
          __renderComplete (el w1) = None ∧
          (promises vetoed_world !! p = Some None →
           promises w1 !! p = Some (Some false))) ∧
    _flushProperties vetoing_hooks vetoed_world = (Normal tt, w2) ∧
    log w2 = log w1 ∧ promises w2 = promises w1 ∧ microtasks w2 = [FlushTask].
Proof. apply (shouldRender_veto vetoing_hooks vetoed_world). reflexivity. Defined.

(** ** Rendering: [_propertiesChanged] *)

(** C3: when the hooks return, [_propertiesChanged] makes these calls, in
    this order and no others: the mixin's change notification; [_render]
    with the current properties; the template renderer, once, with the
    result, the render root and the element's [localName], provided the
    result is not empty and the root exists; [_didRender]; and, if a
    resolver is stored, that resolver with true, which settles the pending
    promise and empties both fields. *)
Theorem propertiesChanged_sequence (hooks : Hooks) (w : World) (props : Props)
    (changedProps prevProps : option Props) (result : option TemplateResult) :
  _render hooks props = Normal result →
  _didRender hooks props changedProps prevProps = Normal tt →
  ∃ w',
    _propertiesChanged hooks props changedProps prevProps w = (Normal tt, w') ∧
    log w' =
      log w
      ++ [EvMixinPropertiesChanged props changedProps prevProps; Ev_render props]
      ++ match result, _root (el w) with
         | Some result, Some root =>
             [EvTemplateRender result root (localName (el w))]
         | _, _ => []
         end
      ++ [Ev_didRender props changedProps prevProps]
      ++ match __resolveRenderComplete (el w) with
         | Some p => [EvResolve p true]
         | None => []
         end ∧
    __resolveRenderComplete (el w') = None ∧
    (∀ p, __resolveRenderComplete (el w) = Some p →
          __renderComplete (el w') = None ∧
          (promises w !! p = Some None → promises w' !! p = Some (Some true))).
Proof.
  intros Hrender HdidRender.
  unfold _propertiesChanged, super__propertiesChanged, _applyRender,
    call___resolveRenderComplete, resolveRenderComplete_closure, resolve,
    emit, lift, when, bind, gets, modify, ret; simpl.
  rewrite Hrender.
  assert (∀ (q : PromiseId) (ps : list (option bool)),
            ps !! q = Some None → settle q true ps !! q = Some (Some true))
    as Hsettle.
  { intros q ps Hq. unfold settle. rewrite Hq.
    apply list_lookup_insert_eq. by eapply lookup_lt_Some. }
  destruct result as [res|], (_root (el w)) as [root|] eqn:Hroot; simpl;
    rewrite ?Hroot, HdidRender; simpl;
    destruct (__resolveRenderComplete (el w)) as [p|] eqn:Hr; simpl;
    rewrite ?Hr; simpl.
  all: eexists; split; [reflexivity|]; simpl.
  all: split; [by rewrite <- ?app_assoc|].
  all: split; [done|].
  all: intros q [= <-].
  all: split; [done|]; apply Hsettle.
Qed.

Lemma propertiesChanged_sequence_witness :
  ∃ w',
    _propertiesChanged rendering_hooks ∅ None None awaited_world
      = (Normal tt, w') ∧
    log w' =
      log awaited_world
      ++ [EvMixinPropertiesChanged ∅ None None; Ev_render ∅]
      ++ [EvTemplateRender "<p>hello</p>" (mkRoot true []) "x-el"]
      ++ [Ev_didRender ∅ None None]
      ++ [EvResolve 0 true] ∧
    __resolveRenderComplete (el w') = None ∧
    (∀ p, Some 0 = Some p →
          __renderComplete (el w') = None ∧
          (promises awaited_world !! p = Some None →
           promises w' !! p = Some (Some true))).
Proof.
  apply (propertiesChanged_sequence rendering_hooks awaited_world ∅ None None
           (Some "<p>hello</p>")); reflexivity.
Defined.

(** ** Flushing: [_flushProperties] *)

Lemma isChanging_call_resolver (b value : bool) :
  preserves (λ w, __isChanging (el w) = b) (call___resolveRenderComplete value).
Proof.
  unfold call___resolveRenderComplete, resolveRenderComplete_closure, resolve,
    emit.
  repeat first [ preserves_step | by apply preserves_modify ].
Qed.

Lemma isChanging_super_flushProperties (hooks : Hooks) (b : bool) :
  preserves (λ w, __isChanging (el w) = b) (super__flushProperties hooks).
Proof.
  pose proof (isChanging_call_resolver b).
  unfold super__flushProperties, _shouldPropertiesChange, _propertiesChanged,
    super__propertiesChanged, _applyRender, emit.
  repeat first [ done | preserves_step | by apply preserves_modify ].
Qed.

(** C2 as stated fails: with [LitElement]'s own [_render], which throws,
    the delegated flush throws, [_flushProperties] ends there, and
    [__isChanging] is left true. *)
Lemma flushProperties_flag_stuck :
  (_flushProperties default_hooks (new_World "x-el" ∅)).1
    = Throw (Error "_render() not implemented") ∧
  __isChanging (el (_flushProperties default_hooks (new_World "x-el" ∅)).2)
    = true.
Proof. split; reflexivity. Qed.

Lemma isInvalid_call_resolver (b value : bool) :
  preserves (λ w, __isInvalid (el w) = b) (call___resolveRenderComplete value).
Proof.
  unfold call___resolveRenderComplete, resolveRenderComplete_closure, resolve,
    emit.
  repeat first [ preserves_step | by apply preserves_modify ].
Qed.

Lemma isInvalid_super_flushProperties (hooks : Hooks) (b : bool) :
  preserves (λ w, __isInvalid (el w) = b) (super__flushProperties hooks).
Proof.
  pose proof (isInvalid_call_resolver b).
  unfold super__flushProperties, _shouldPropertiesChange, _propertiesChanged,
    super__propertiesChanged, _applyRender, emit.
  repeat first [ done | preserves_step | by apply preserves_modify ].
Qed.

(** C2, amended: [_flushProperties] is the mixin's flush run on the
    element with [__isChanging] set to true and [__isInvalid] set to
    false, followed, when that flush returns, by setting [__isChanging]
    back to false; when it throws, [_flushProperties] throws the same
    error and nothing more is done.  So afterwards [__isInvalid] is false
    however the call ends, and [__isChanging] is false when the call
    returns and left true when it throws. *)
Theorem flushProperties_isChanging (hooks : Hooks) (w : World) :
  ∃ (r : Completion unit) (w1 : World),
    super__flushProperties hooks
      (with_el (set___isInvalid false) (with_el (set___isChanging true) w))
    = (r, w1) ∧
    _flushProperties hooks w
    = (r, match r with
          | Normal _ => with_el (set___isChanging false) w1
          | Throw _ => w1
          end) ∧
    __isInvalid (el (_flushProperties hooks w).2) = false ∧
    __isChanging (el (_flushProperties hooks w).2)
    = match (_flushProperties hooks w).1 with
      | Normal _ => false
      | Throw _ => true
      end.
Proof.
  destruct (super__flushProperties hooks
              (with_el (set___isInvalid false)
                 (with_el (set___isChanging true) w)))
    as [r w1] eqn:Hsuper.
  exists r, w1. split; [done|].
  assert (_flushProperties hooks w
          = (r, match r with
                | Normal _ => with_el (set___isChanging false) w1
                | Throw _ => w1
                end)) as Hflush.
  { unfold _flushProperties, bind, modify. rewrite Hsuper.
    by destruct r as [[]|e]. }
  split; [done|]. rewrite Hflush.
  assert (__isInvalid (el w1) = false) as Hinvalid
    by (by eapply (isInvalid_super_flushProperties hooks false);
          [|exact Hsuper]).
  assert (__isChanging (el w1) = true) as Hchanging
    by (by eapply (isChanging_super_flushProperties hooks true);
          [|exact Hsuper]).
  by destruct r as [[]|e].
Qed.

(** Two render requests made before the flush runs give one render. *)
Example requestRender_twice_renders_once :
  log (run rendering_hooks
           [CallRequestRender; CallRequestRender; NextMicrotask; NextMicrotask]
           (run rendering_hooks [CallReady] (new_World "x-el" ∅)))
  = log (run rendering_hooks [CallReady] (new_World "x-el" ∅))
    ++ [EvMixinPropertiesChanged ∅ None None; Ev_render ∅;
        EvTemplateRender "<p>hello</p>" (mkRoot true []) "x-el";
        Ev_didRender ∅ None None].
Proof. vm_compute. reflexivity. Qed.

(** ** The completion signal: [renderComplete] *)

Lemma run_app (hooks : Hooks) (actions later : list Action) (w : World) :
  run hooks (actions ++ later) w = run hooks later (run hooks actions w).
Proof. apply fold_left_app. Qed.

Lemma renderComplete_pending (hooks : Hooks) (actions : list Action)
    (name : string) (props : Props) (p : PromiseId) :
  let w := run hooks actions (new_World name props) in
  promises w !! p = Some None →
  renderComplete w = (Normal p, w).
Proof.
  intros w Hp.
  assert (signal_consistent w) as (_ & Hpending & _)
    by apply signal_run, signal_new_World.
  apply Hpending in Hp.
  unfold renderComplete, bind, gets, ret. by rewrite Hp.
Qed.

(** C9: in every state the element can reach, a read of [renderComplete]
    returns a promise that is pending when the read returns; if a promise
    was pending before the read, that is the one returned and the read
    changes nothing (no promise is made, nothing is queued); and whatever
    happens next, every read made while the returned promise is still
    pending returns it again and changes nothing. *)
Theorem renderComplete_same_signal (hooks : Hooks) (actions : list Action)
    (name : string) (props : Props) :
  let w := run hooks actions (new_World name props) in
  ∃ (p : PromiseId) (w1 : World),
    renderComplete w = (Normal p, w1) ∧
    promises w1 !! p = Some None ∧
    (∀ q, promises w !! q = Some None → q = p ∧ w1 = w) ∧
    ∀ later : list Action,
      let w2 := run hooks later w1 in
      promises w2 !! p = Some None → renderComplete w2 = (Normal p, w2).
Proof.
  intros w.
  destruct (renderComplete w) as [r w1] eqn:Hread.
  assert (signal_consistent w) as (_ & Hpending & _)
    by apply signal_run, signal_new_World.
  assert (∃ p, r = Normal p ∧ __renderComplete (el w1) = Some p
               ∧ (∀ q, promises w !! q = Some None → q = p ∧ w1 = w))
    as (p & -> & Hstored & Hsame).
  { revert Hread.
    unfold renderComplete, new_promise, queueMicrotask, when, bind, gets,
      modify, ret.
    destruct (__renderComplete (el w)) as [p|] eqn:Hrc; simpl.
    - intros [= <- <-]. exists p. do 2 (split; [done|]).
      intros q Hq%Hpending. split; congruence.
    - destruct (negb (__isInvalid (el w))); simpl; intros [= <- <-];
        eexists; (split; [reflexivity|]); (split; [reflexivity|]);
        intros q Hq%Hpending; congruence. }
  assert (w1 = run hooks (actions ++ [ReadRenderComplete])
                   (new_World name props)) as Hw1.
  { rewrite run_app. fold w. simpl. unfold step. simpl. unfold bind.
    by rewrite Hread. }
  assert (signal_consistent w1) as (_ & Hpending1 & _)
    by (rewrite Hw1; apply signal_run, signal_new_World).
  exists p, w1. split; [done|]. split; [by apply Hpending1|].
  split; [done|]. intros later w2 Hp.
  subst w2. revert Hp. rewrite Hw1, <- run_app.
  apply renderComplete_pending.
Qed.

(** C7 as stated fails: [renderComplete] is read while [__isInvalid] is
    false; [ready()] then renders synchronously, and the promise is
    resolved with true while the deferred callback is still queued. *)
Lemma renderComplete_resolved_true_before_microtask :
  __isInvalid (el (new_World "x-el" ∅)) = false ∧
  (renderComplete (new_World "x-el" ∅)).1 = Normal 0 ∧
  promises (run rendering_hooks [ReadRenderComplete; CallReady]
                (new_World "x-el" ∅)) !! 0 = Some (Some true) ∧
  microtasks (run rendering_hooks [ReadRenderComplete; CallReady]
                  (new_World "x-el" ∅)) = [ResolveRenderCompleteFalse].
Proof. repeat split; reflexivity. Qed.

(** C7, amended: a read of [renderComplete] that makes a promise while
    [__isInvalid] is false returns with the promise still pending and with
    one callback added at the end of the microtask queue; run when that
    promise is still the stored one, the callback resolves it with false;
    so the promise is resolved with false at the next microtask when the
    queue was empty. *)
Theorem renderComplete_deferred_false (hooks : Hooks) (w : World) :
  __isInvalid (el w) = false →
  __renderComplete (el w) = None →
  ∃ w1,
    renderComplete w = (Normal (length (promises w)), w1) ∧
    promises w1 = promises w ++ [None] ∧
    log w1 = log w ∧
    microtasks w1 = microtasks w ++ [ResolveRenderCompleteFalse] ∧
    (∀ w2, __resolveRenderComplete (el w2) = Some (length (promises w)) →
           promises w2 !! length (promises w) = Some None →
           ∃ w3, run_microtask hooks ResolveRenderCompleteFalse w2
                   = (Normal tt, w3) ∧
                 promises w3 !! length (promises w) = Some (Some false)) ∧
    (microtasks w = [] →
     promises (step hooks w1 NextMicrotask) !! length (promises w)
       = Some (Some false)).
Proof.
  intros Hinvalid Hnone.
  assert (∀ (q : PromiseId) (ps : list (option bool)),
            ps !! q = Some None → settle q false ps !! q = Some (Some false))
    as Hsettle.
  { intros q ps Hq. unfold settle. rewrite Hq.
    apply list_lookup_insert_eq. by eapply lookup_lt_Some. }
  unfold renderComplete, new_promise, queueMicrotask, when, bind, gets,
    modify, ret.
  rewrite Hnone. simpl. rewrite Hinvalid. simpl.
  eexists. split; [reflexivity|]. simpl. do 3 (split; [reflexivity|]). split.
  - intros w2 Hr Hp.
    unfold run_microtask, call___resolveRenderComplete,
      resolveRenderComplete_closure, resolve, emit, bind, gets, modify.
    rewrite Hr. eexists. split; [reflexivity|]. simpl. by apply Hsettle.
  - intros Hempty. unfold step, perform, run_microtask,
      call___resolveRenderComplete, resolveRenderComplete_closure, resolve,
      emit, bind, gets, modify; simpl.
    rewrite Hempty. simpl. apply Hsettle.
    by rewrite lookup_app_r, Nat.sub_diag by lia.
Qed.

Lemma renderComplete_deferred_false_witness :
  ∃ w1,
    renderComplete (new_World "x-el" ∅) = (Normal 0, w1) ∧
    promises w1 = [] ++ [None] ∧
    log w1 = [] ∧
    microtasks w1 = [] ++ [ResolveRenderCompleteFalse] ∧
    (∀ w2, __resolveRenderComplete (el w2) = Some 0 →
           promises w2 !! 0 = Some None →
           ∃ w3, run_microtask rendering_hooks ResolveRenderCompleteFalse w2
                   = (Normal tt, w3) ∧
                 promises w3 !! 0 = Some (Some false)) ∧
    (@nil Microtask = [] →
     promises (step rendering_hooks w1 NextMicrotask) !! 0 = Some (Some false)).
Proof.
  apply (renderComplete_deferred_false rendering_hooks (new_World "x-el" ∅));
    reflexivity.
Defined.

(** C1 fails on this execution.  [renderComplete] is read before the
    element is first rendered; [ready()] renders and resolves that promise
    with true, but its deferred callback stays queued.  A render is then
    requested and [renderComplete] read again: a second promise, made while
    [__isInvalid] is true and under a [_shouldRender] that never refuses.
    The stale callback runs first and resolves the second promise with
    false; the requested render happens at the next microtask, with no
    promise left to report it. *)
Lemma stale_callback_resolves_next_signal :
  let requested :=
    run rendering_hooks [ReadRenderComplete; CallReady; CallRequestRender]
        (new_World "x-el" ∅) in
  let awaited := step rendering_hooks requested ReadRenderComplete in
  let resolved := step rendering_hooks awaited NextMicrotask in
  let rendered := step rendering_hooks resolved NextMicrotask in
  __isInvalid (el requested) = true ∧
  microtasks requested = [ResolveRenderCompleteFalse; FlushTask] ∧
  renderComplete requested = (Normal 1, awaited) ∧
  promises awaited = [Some true; None] ∧
  promises resolved = [Some true; Some false] ∧
  log resolved = log awaited ++ [EvResolve 1 false] ∧
  log rendered =
    log resolved
    ++ [EvMixinPropertiesChanged ∅ None None; Ev_render ∅;
        EvTemplateRender "<p>hello</p>" (mkRoot true []) "x-el";
        Ev_didRender ∅ None None] ∧
  promises rendered = [Some true; Some false].
Proof. vm_compute. repeat split; reflexivity. Qed.

(* ===================================================================== *)
(** * The per-instance callback *)
(* ===================================================================== *)

Lemma bind_Normal {S A B} (m : M S A) (k : A → M S B) (s s' : S) (a : A) :
  m s = (Normal a, s') → bind m k s = k a s'.
Proof. unfold bind. by intros ->. Qed.

(** C6 fails on the sources' [LitElement]: it declares none of
    [renderRoot], [_getUniqueStyles], [adoptStyles], [requestUpdate], so on
    every platform and in every state of the element the per-instance
    callback throws a TypeError - at [this.renderRoot.children] where
    style sheets cannot be adopted, at [this.constructor._getUniqueStyles()]
    elsewhere - and leaves the element as it was: [__isInvalid] is not
    set and no flush is scheduled. *)
Theorem prototype_hotReplaceCallback_throws (window : Window) (w : World) :
  prototype_hotReplaceCallback_on window LitElement_host w
  = (Throw (TypeError
       (if supportsAdoptingStyleSheets window
        then "this.constructor._getUniqueStyles is not a function"
        else "Cannot read properties of undefined (reading 'children')")),
     w).
Proof.
  unfold prototype_hotReplaceCallback_on, LitElement_host, read_member,
    call_member, when, bind, ret, throw; simpl.
  by destruct (supportsAdoptingStyleSheets window).
Qed.

(** On a rendered element: after the callback [__isInvalid] is still
    false and nothing is queued, where [_requestRender] sets the flag and
    queues a flush. *)
Example prototype_hotReplaceCallback_requests_nothing :
  let w := run rendering_hooks [CallReady] (new_World "x-el" ∅) in
  let w' := (prototype_hotReplaceCallback_on legacy_window LitElement_host w).2 in
  __isInvalid (el w') = false ∧ microtasks w' = [] ∧
  __isInvalid (el (_requestRender w).2) = true ∧
  microtasks (_requestRender w).2 = [FlushTask].
Proof. vm_compute. repeat split; reflexivity. Qed.

(** On an element of a class that provides the four members, with an
    injected style element in its shadow root, the style element is gone
    afterwards. *)
Example prototype_hotReplaceCallback_removes_styles :
  _root (el (prototype_hotReplaceCallback legacy_window (ret tt) (ret tt)
               styled_world).2)
  = Some (mkRoot true [mkNode 1 "P"]).
Proof. vm_compute. reflexivity. Qed.

(* ===================================================================== *)
(** * The formatting helpers *)
(* ===================================================================== *)

Lemma append_cons (a : ascii) (s t : string) :
  String a s +:+ t = String a (s +:+ t).
Proof. reflexivity. Qed.

Lemma append_empty_r (s : string) : s +:+ "" = s.
Proof.
  induction s as [|a s IH]; [done|]. by rewrite append_cons, IH.
Qed.

Lemma split_on_cons (c : ascii) (s : string) :
  ∃ x r, split_on c s = x :: r.
Proof.
  induction s as [|a s (x & r & IH)]; simpl; [by eauto|].
  case_decide; [by eauto|]. rewrite IH. eauto.
Qed.

(** A prefix without the separator stays in front of the first piece. *)
Lemma split_on_prefix (c : ascii) (p s : string) :
  occurs c p = false →
  split_on c (p +:+ s)
  = match split_on c s with
    | x :: r => (p +:+ x) :: r
    | [] => []
    end.
Proof.
  induction p as [|a p IH].
  - intros _. change ("" +:+ s) with s.
    destruct (split_on_cons c s) as (x & r & ->). done.
  - simpl. intros [Ha Hp]%orb_false_iff. apply bool_decide_eq_false_1 in Ha.
    rewrite decide_False by done. rewrite IH by done.
    destruct (split_on_cons c s) as (x & r & ->). reflexivity.
Qed.

Lemma split_on_separator (c : ascii) (s : string) :
  split_on c (String c s) = "" :: split_on c s.
Proof. simpl. by rewrite decide_True. Qed.

(** Splitting a joined list at the first character of the separator gives
    the elements back, each but the first still carrying the rest of the
    separator. *)
Lemma split_on_join (c : ascii) (rest x : string) (l : list string) :
  occurs c rest = false →
  Forall (λ y, occurs c y = false) (x :: l) →
  split_on c (join (String c rest) (x :: l)) = x :: (String.append rest <$> l).
Proof.
  intros Hrest. revert x. induction l as [|y l IH]; intros x Hall.
  - apply Forall_cons in Hall as [Hx _]. simpl.
    rewrite <- (append_empty_r x) at 1. rewrite split_on_prefix by done.
    simpl. by rewrite append_empty_r.
  - apply Forall_cons in Hall as [Hx Hall].
    change (join (String c rest) (x :: y :: l))
      with (x +:+ String c (rest +:+ join (String c rest) (y :: l))).
    rewrite split_on_prefix, split_on_separator by done.
    rewrite append_empty_r. f_equal.
    rewrite split_on_prefix by done. by rewrite IH.
Qed.

Section HelperFacts.
Context {Number : Type}.
Variable number_truthy : Number → bool.
Variable number_is_zero : Number → bool.
Variable number_toString : Number → string.
Variable camelToDashCase : string → string.
Variable validAttributeName : string → bool.

Lemma classString_loop (classInfo : Info Number) (o : list string) :
  fold_left (λ o '(name, v), if truthy number_truthy v then o ++ [name] else o)
            classInfo o
  = o ++ enabled_names number_truthy classInfo.
Proof.
  unfold enabled_names. revert o.
  induction classInfo as [|[name v] info IH]; intros o.
  - simpl. by rewrite app_nil_r.
  - simpl. rewrite IH.
    destruct (truthy number_truthy v); simpl; [|done].
    by rewrite <- app_assoc.
Qed.

Lemma classString_enabled_names (classInfo : Info Number) :
  classString number_truthy classInfo
  = join " " (enabled_names number_truthy classInfo).
Proof. unfold classString. by rewrite classString_loop. Qed.

Lemma styleString_loop (styleInfo : Info Number) (o : list string) :
  fold_left (λ o '(name, v),
               if truthy number_truthy v || is_zero number_is_zero v
               then o ++ [camelToDashCase name +:+ ": "
                          +:+ toString number_toString v]
               else o)
            styleInfo o
  = o ++ declarations number_truthy number_is_zero number_toString
           camelToDashCase styleInfo.
Proof.
  unfold declarations. revert o.
  induction styleInfo as [|[name v] info IH]; intros o.
  - simpl. by rewrite app_nil_r.
  - simpl. rewrite IH.
    destruct (truthy number_truthy v || is_zero number_is_zero v); simpl;
      [|done].
    by rewrite <- app_assoc.
Qed.

Lemma styleString_declarations (styleInfo : Info Number) :
  styleString number_truthy number_is_zero number_toString camelToDashCase
    styleInfo
  = join "; " (declarations number_truthy number_is_zero number_toString
                 camelToDashCase styleInfo).
Proof. unfold styleString. by rewrite styleString_loop. Qed.

(** X1: when no name with a truthy value contains a space, splitting the
    class string at spaces gives back exactly the names with a truthy
    value, in the order of the info object; with no such name the class
    string is empty. *)
Theorem classString_split (classInfo : Info Number) :
  Forall (λ name, occurs " " name = false)
         (enabled_names number_truthy classInfo) →
  split_on " " (classString number_truthy classInfo)
  = match enabled_names number_truthy classInfo with
    | [] => [""]
    | names => names
    end.
Proof.
  intros Hnames. rewrite classString_enabled_names.
  destruct (enabled_names number_truthy classInfo) as [|x l]; [done|].
  rewrite (split_on_join " " "" x l) by done.
  f_equal. induction l as [|y l IH]; simpl; [done|].
  apply Forall_cons in Hnames as [Hx Hl].
  apply Forall_cons in Hl as [Hy Hl]. f_equal. apply IH.
  by apply Forall_cons.
Qed.

(** X2: the style string is the kept declarations "name: value" separated
    by "; ", where an entry is kept when its value is truthy or is the
    number 0: when no declaration contains a semicolon, splitting at
    semicolons gives the declarations back, each but the first after one
    space. *)
Theorem styleString_split (styleInfo : Info Number) :
  Forall (λ d, occurs ";" d = false)
         (declarations number_truthy number_is_zero number_toString
            camelToDashCase styleInfo) →
  split_on ";" (styleString number_truthy number_is_zero number_toString
                  camelToDashCase styleInfo)
  = match declarations number_truthy number_is_zero number_toString
            camelToDashCase styleInfo with
    | [] => [""]
    | d :: ds => d :: (String.append " " <$> ds)
    end.
Proof.
  intros Hdecl. rewrite styleString_declarations.
  destruct (declarations _ _ _ _ styleInfo) as [|d ds]; [done|].
  by apply (split_on_join ";" " ").
Qed.
(** ** [renderAttributes] *)

Lemma for_of_app {S A} (l1 l2 : list A) (body : A → M S unit) (s : S) :
  for_of (l1 ++ l2) body s = (for_of l1 body ;; for_of l2 body) s.
Proof.
  revert s. induction l1 as [|x l1 IH]; intros s; simpl.
  - unfold bind, ret. done.
  - unfold bind in *. destruct (body x s) as [[[]|e] s1]; [|done].
    apply IH.
Qed.

#[local] Abbreviation renderAttribute' :=
  (renderAttribute number_truthy number_is_zero number_toString
     validAttributeName).
#[local] Abbreviation renderAttributes' :=
  (renderAttributes number_truthy number_is_zero number_toString
     validAttributeName).
#[local] Abbreviation attribute_for' :=
  (attribute_for number_truthy number_is_zero number_toString).

(** What one entry does, by its target. *)
Lemma renderAttribute_unfold (a : string) (value : InfoValue Number)
    (e : Element) :
  renderAttribute' a value e =
  match attribute_for' value with
  | Some s =>
      if match value with
         | INumber _ => true
         | _ => negb (bool_decide (attributes e !! toLowerCase a = Some s))
         end
      then if validAttributeName a
           then (Normal tt,
                 {| attributes := <[toLowerCase a := s]> (attributes e);
                    calls := calls e ++ [SetAttribute a s] |})
           else (Throw (Error "InvalidCharacterError"), e)
      else (Normal tt, e)
  | None =>
      if isSome (attributes e !! toLowerCase a)
      then (Normal tt,
            {| attributes := delete (toLowerCase a) (attributes e);
               calls := calls e ++ [RemoveAttribute a] |})
      else (Normal tt, e)
  end.
Proof.
  unfold renderAttribute, getAttribute, hasAttribute, setAttribute,
    removeAttribute, when, bind, gets, modify, ret, throw.
  destruct value as [s|[]|n]; simpl.
  - replace (negb (bool_decide (s = "")) || bool_decide (s = "") || false)
      with true by (by destruct (bool_decide (s = ""))).
    destruct (attributes e !! toLowerCase a) as [s'|]; simpl.
    + destruct (decide (s' = s)) as [->|Hne].
      * by rewrite !bool_decide_eq_true_2.
      * rewrite !bool_decide_eq_false_2 by congruence. simpl.
        by destruct (validAttributeName a).
    + by destruct (validAttributeName a).
  - destruct (attributes e !! toLowerCase a) as [s'|]; simpl.
    + destruct (decide (s' = "")) as [->|Hne].
      * by rewrite !bool_decide_eq_true_2.
      * rewrite !bool_decide_eq_false_2 by congruence. simpl.
        by destruct (validAttributeName a).
    + by destruct (validAttributeName a).
  - by destruct (attributes e !! toLowerCase a).
  - rewrite orb_false_r.
    destruct (number_truthy n || number_is_zero n); simpl.
    + destruct (attributes e !! toLowerCase a); simpl;
        by destruct (validAttributeName a).
    + by destruct (attributes e !! toLowerCase a).
Qed.

(** One entry with an acceptable name: the attribute is put at its target. *)
Lemma renderAttribute_result (a : string) (value : InfoValue Number)
    (e : Element) :
  validAttributeName a = true →
  ∃ e', renderAttribute' a value e = (Normal tt, e') ∧
        attributes e' = match attribute_for' value with
                        | Some s => <[toLowerCase a := s]> (attributes e)
                        | None => delete (toLowerCase a) (attributes e)
                        end.
Proof.
  intros Hvalid. rewrite renderAttribute_unfold, Hvalid.
  destruct (attribute_for' value) as [s|].
  - destruct value as [?|?|?]; try case_bool_decide; simpl;
      eexists; (split; [reflexivity|]); simpl; try done;
      by rewrite insert_id.
  - destruct (attributes e !! toLowerCase a) eqn:Ha; simpl;
      eexists; (split; [reflexivity|]); simpl; [done|].
    by rewrite delete_id.
Qed.

(** However an entry ends, other attributes are as they were. *)
Lemma renderAttribute_frame (a : string) (value : InfoValue Number)
    (e : Element) (r : Completion unit) (e' : Element) (k : string) :
  renderAttribute' a value e = (r, e') →
  k ≠ toLowerCase a →
  attributes e' !! k = attributes e !! k.
Proof.
  rewrite renderAttribute_unfold. intros Hrun Hk. revert Hrun.
  repeat match goal with
         | |- context [match ?b with _ => _ end] => destruct b
         end; intros [= <- <-]; simpl;
    rewrite ?lookup_insert_ne, ?lookup_delete_ne by done; done.
Qed.

Lemma renderAttributes_other (attrInfo : Info Number) (e : Element)
    (k : string) :
  k ∉ (λ nv, toLowerCase nv.1) <$> attrInfo →
  attributes (renderAttributes' attrInfo e).2 !! k = attributes e !! k.
Proof.
  unfold renderAttributes.
  revert e. induction attrInfo as [|[a value] info IH]; intros e Hk; [done|].
  rewrite fmap_cons, not_elem_of_cons in Hk. destruct Hk as [Hne Hk].
  simpl. unfold bind.
  destruct (renderAttribute' a value e) as [[[]|err] e1] eqn:Hstep; simpl.
  - transitivity (attributes e1 !! k); [apply (IH e1 Hk)|].
    by eapply renderAttribute_frame.
  - by eapply renderAttribute_frame.
Qed.

(** X3: however [renderAttributes] ends - also when [setAttribute] throws
    part of the way - an attribute whose name is not (in lower case) a
    name of the info object is as it was. *)
Theorem renderAttributes_frame (attrInfo : Info Number) (e : Element)
    (k : string) :
  k ∉ (λ nv, toLowerCase nv.1) <$> attrInfo →
  attributes (renderAttributes' attrInfo e).2 !! k = attributes e !! k.
Proof.
  intros Hk.
  destruct (renderAttributes' attrInfo e) as [r e'] eqn:Hrun.
  pose proof (renderAttributes_other attrInfo e k Hk) as Hother.
  by rewrite Hrun in Hother.
Qed.

(** X4: when every name is acceptable to [setAttribute] and no two names
    agree in lower case, [renderAttributes] returns and every entry has its
    attribute at the target: the empty string for [true], the string
    itself (also the empty one), the printed number (also 0), and no
    attribute for [false] and for NaN. *)
Theorem renderAttributes_sets (attrInfo : Info Number) (e : Element) :
  Forall (λ nv, validAttributeName nv.1 = true) attrInfo →
  NoDup ((λ nv, toLowerCase nv.1) <$> attrInfo) →
  ∃ e', renderAttributes' attrInfo e = (Normal tt, e') ∧
        ∀ a value, (a, value) ∈ attrInfo →
                   attributes e' !! toLowerCase a = attribute_for' value.
Proof.
  revert e. induction attrInfo as [|[a value] info IH]; intros e Hvalid Hnd.
  - exists e. split; [done|]. intros a value Hin. by apply elem_of_nil in Hin.
  - apply Forall_cons in Hvalid as [Ha Hvalid].
    rewrite fmap_cons in Hnd. apply NoDup_cons in Hnd as [Hfresh Hnd].
    destruct (renderAttribute_result a value e Ha) as (e1 & Hstep & Hattr).
    destruct (IH e1 Hvalid Hnd) as (e' & Hrest & Hall).
    exists e'. split.
    { unfold renderAttributes in *. simpl. unfold bind. by rewrite Hstep. }
    intros a' value' [[= -> ->]|Hin]%elem_of_cons; [|by apply Hall].
    pose proof (renderAttributes_other info e1 _ Hfresh) as Hframe.
    rewrite Hrest in Hframe. simpl in Hframe. rewrite Hframe, Hattr.
    destruct (attribute_for' value).
    + by rewrite lookup_insert_eq.
    + by rewrite lookup_delete_eq.
Qed.

(** X5: on an element whose attributes are already at their targets,
    [renderAttributes] changes no attribute and makes no call for boolean
    and string entries; but a number never compares equal to the attribute
    string, so every number entry with a target calls [setAttribute] again. *)
Theorem renderAttributes_again (attrInfo : Info Number) (e : Element) :
  Forall (λ nv, validAttributeName nv.1 = true) attrInfo →
  (∀ a value, (a, value) ∈ attrInfo →
              attributes e !! toLowerCase a = attribute_for' value) →
  renderAttributes' attrInfo e
  = (Normal tt,
     {| attributes := attributes e;
        calls := calls e ++ number_calls number_truthy number_is_zero
                              number_toString attrInfo |}).
Proof.
  revert e. induction attrInfo as [|[a value] info IH]; intros e Hvalid Hat.
  - simpl. unfold ret. rewrite app_nil_r. by destruct e.
  - apply Forall_cons in Hvalid as [Ha Hvalid]. simpl in Ha.
    assert (attributes e !! toLowerCase a = attribute_for' value) as Hhead
      by (apply Hat, elem_of_cons; by left).
    assert (renderAttribute' a value e
            = (Normal tt,
               {| attributes := attributes e;
                  calls := calls e ++ number_calls number_truthy
                             number_is_zero number_toString [(a, value)] |}))
      as Hstep.
    { rewrite renderAttribute_unfold, Ha, Hhead.
      destruct (attribute_for' value) as [s|] eqn:Htarget.
      - destruct value as [?|?|n]; simpl in *.
        + rewrite bool_decide_eq_true_2 by done. simpl.
          rewrite app_nil_r. by destruct e.
        + rewrite bool_decide_eq_true_2 by done. simpl.
          rewrite app_nil_r. by destruct e.
        + destruct (number_truthy n || number_is_zero n); [|done].
          injection Htarget as <-. by rewrite insert_id.
      - simpl. destruct value as [?|[]|n]; simpl in *; try done.
        + rewrite app_nil_r. by destruct e.
        + destruct (number_truthy n || number_is_zero n); [done|].
          rewrite app_nil_r. by destruct e. }
    unfold renderAttributes in *. simpl. unfold bind at 1. rewrite Hstep.
    rewrite IH; [|done|].
    + simpl. rewrite <- app_assoc. f_equal. f_equal. f_equal.
      simpl. by destruct value as [?|?|n];
        [| |destruct (number_truthy n || number_is_zero n)].
    + intros a' value' Hin. simpl. apply Hat, elem_of_cons. by right.
Qed.

(** X6: an entry that needs [setAttribute] under a name the platform does
    not accept makes [renderAttributes] throw; the entries before it have
    been applied, the entries after it have not. *)
Theorem renderAttributes_invalid_name (before after : Info Number)
    (a : string) (value : InfoValue Number) (s : string) (e e1 : Element) :
  renderAttributes' before e = (Normal tt, e1) →
  validAttributeName a = false →
  attribute_for' value = Some s →
  attributes e1 !! toLowerCase a ≠ Some s →
  renderAttributes' (before ++ (a, value) :: after) e
  = (Throw (Error "InvalidCharacterError"), e1).
Proof.
  intros Hbefore Hinvalid Htarget Hdiffers.
  unfold renderAttributes. rewrite for_of_app. unfold bind at 1.
  unfold renderAttributes in Hbefore. rewrite Hbefore. simpl.
  unfold bind at 1.
  assert (renderAttribute' a value e1
          = (Throw (Error "InvalidCharacterError"), e1)) as ->; [|done].
  rewrite renderAttribute_unfold, Htarget, Hinvalid.
  destruct value; try done; by rewrite bool_decide_eq_false_2.
Qed.
End HelperFacts.

Lemma classString_split_witness :
  split_on " " (classString Z_truthy
                  [("active", IBoolean true); ("big", INumber 0%Z);
                   ("", IString ""); ("round", IString "yes")])
  = ["active"; "round"].
Proof.
  apply (classString_split Z_truthy
           [("active", IBoolean true); ("big", INumber 0%Z);
            ("", IString ""); ("round", IString "yes")]).
  vm_compute. repeat constructor.
Defined.

Lemma styleString_split_witness :
  split_on ";" (styleString Z_truthy Z_is_zero Z_toString dash_capitals
                  [("backgroundColor", IString "red"); ("opacity", INumber 0%Z);
                   ("display", IBoolean false); ("zIndex", INumber 12%Z)])
  = ["background-color: red"; " opacity: 0"; " z-index: 12"].
Proof.
  apply (styleString_split Z_truthy Z_is_zero Z_toString dash_capitals
           [("backgroundColor", IString "red"); ("opacity", INumber 0%Z);
            ("display", IBoolean false); ("zIndex", INumber 12%Z)]).
  vm_compute. repeat constructor.
Defined.

Lemma renderAttributes_sets_witness :
  ∃ e', renderAttributes Z_truthy Z_is_zero Z_toString simple_name
          example_attrInfo example_element = (Normal tt, e') ∧
        ∀ a value, (a, value) ∈ example_attrInfo →
                   attributes e' !! toLowerCase a
                   = attribute_for Z_truthy Z_is_zero Z_toString value.
Proof.
  apply (renderAttributes_sets Z_truthy Z_is_zero Z_toString simple_name
           example_attrInfo example_element).
  - vm_compute. repeat constructor.
  - apply (bool_decide_unpack _). vm_compute. exact I.
Defined.

Lemma renderAttributes_frame_witness :
  attributes (renderAttributes Z_truthy Z_is_zero Z_toString simple_name
                example_attrInfo example_element).2 !! "id"
  = attributes example_element !! "id".
Proof.
  apply (renderAttributes_frame Z_truthy Z_is_zero Z_toString simple_name
           example_attrInfo example_element "id").
  apply (bool_decide_unpack _). vm_compute. exact I.
Defined.

Lemma renderAttributes_again_witness :
  renderAttributes Z_truthy Z_is_zero Z_toString simple_name example_attrInfo
    rendered_element
  = (Normal tt,
     {| attributes := attributes rendered_element;
        calls := calls rendered_element
                 ++ number_calls Z_truthy Z_is_zero Z_toString
                      example_attrInfo |}).
Proof.
  apply (renderAttributes_again Z_truthy Z_is_zero Z_toString simple_name
           example_attrInfo rendered_element).
  - vm_compute. repeat constructor.
  - intros a value Hin. vm_compute in Hin.
    repeat (apply elem_of_cons in Hin as [[= -> ->]|Hin]; [reflexivity|]).
    by apply elem_of_nil in Hin.
Defined.

Lemma renderAttributes_invalid_name_witness :
  renderAttributes Z_truthy Z_is_zero Z_toString simple_name
    ([("hidden", IBoolean true)] ++ ("data x", IString "1")
       :: [("title", IString "t")])
    example_element
  = (Throw (Error "InvalidCharacterError"),
     (renderAttributes Z_truthy Z_is_zero Z_toString simple_name
        [("hidden", IBoolean true)] example_element).2).
Proof.
  apply (renderAttributes_invalid_name Z_truthy Z_is_zero Z_toString
           simple_name [("hidden", IBoolean true)] [("title", IString "t")]
           "data x" (IString "1") "1" example_element).
  - reflexivity.
  - reflexivity.
  - reflexivity.
  - vm_compute. discriminate.
Defined.

(* ===================================================================== *)
(** * More about the lifecycle *)
(* ===================================================================== *)

(** ** What a flush leaves alone *)

Lemma length_settle (p : PromiseId) (value : bool) (ps : list (option bool)) :
  length (settle p value ps) = length ps.
Proof.
  unfold settle. destruct (ps !! p) as [[]|]; [done| |done].
  apply length_insert.
Qed.

Lemma flush_frame_modify (l0 : list Event) (q : list Microtask)
    (scheduled isReady : bool) (root : option RenderRoot) (n : nat)
    (f : World → World) :
  (∀ w, microtasks (f w) = microtasks w ∧
        __dataInvalid (mixin (f w)) = __dataInvalid (mixin w) ∧
        __dataReady (mixin (f w)) = __dataReady (mixin w) ∧
        __isInvalid (el (f w)) = __isInvalid (el w) ∧
        _root (el (f w)) = _root (el w) ∧
        length (promises (f w)) = length (promises w) ∧
        log (f w) = log w) →
  preserves (flush_frame l0 q scheduled isReady root n) (modify f).
Proof.
  intros Hf. apply preserves_modify. unfold flush_frame. intros w.
  destruct (Hf w) as (-> & -> & -> & -> & -> & -> & ->). done.
Qed.

Lemma flush_frame_emit (l0 : list Event) (q : list Microtask)
    (scheduled isReady : bool) (root : option RenderRoot) (n : nat)
    (e : Event) :
  flush_event e = true →
  preserves (flush_frame l0 q scheduled isReady root n) (emit e).
Proof.
  intros He. apply preserves_modify.
  intros w (? & ? & ? & ? & ? & ? & events & Hlog & Hall).
  repeat (split; [done|]). exists (events ++ [e]). simpl. split.
  - by rewrite Hlog, app_assoc.
  - apply Forall_app. split; [done|]. by apply Forall_singleton.
Qed.

Ltac flush_frame_tac :=
  repeat first
    [ preserves_step
    | apply flush_frame_emit; reflexivity
    | apply flush_frame_modify; intros ?; simpl;
      rewrite ?length_settle; done ].

Lemma flush_frame_call_resolver (l0 : list Event) (q : list Microtask)
    (scheduled isReady : bool) (root : option RenderRoot) (n : nat)
    (value : bool) :
  preserves (flush_frame l0 q scheduled isReady root n)
            (call___resolveRenderComplete value).
Proof.
  unfold call___resolveRenderComplete, resolveRenderComplete_closure, resolve.
  flush_frame_tac.
Qed.

Lemma flush_frame_super_flushProperties (hooks : Hooks) (l0 : list Event)
    (q : list Microtask) (scheduled isReady : bool)
    (root : option RenderRoot) (n : nat) :
  preserves (flush_frame l0 q scheduled isReady root n)
            (super__flushProperties hooks).
Proof.
  pose proof (flush_frame_call_resolver l0 q scheduled isReady root n).
  unfold super__flushProperties, _shouldPropertiesChange, _propertiesChanged,
    super__propertiesChanged, _applyRender.
  repeat first [ done | flush_frame_tac ].
Qed.

(** However a flush ends, it leaves the microtask queue, the mixin's
    schedule and readiness, the render root and the number of promises as
    they were, [__isInvalid] false, and adds only events of its own to the
    log. *)
Lemma flushProperties_frame (hooks : Hooks) (w : World) (r : Completion unit)
    (w' : World) :
  _flushProperties hooks w = (r, w') →
  flush_frame (log w) (microtasks w) (__dataInvalid (mixin w))
              (__dataReady (mixin w)) (_root (el w)) (length (promises w)) w'.
Proof.
  assert (preserves (flush_frame (log w) (microtasks w)
                       (__dataInvalid (mixin w)) (__dataReady (mixin w))
                       (_root (el w)) (length (promises w)))
            (super__flushProperties hooks ;;
             modify (with_el (set___isChanging false)))) as Hrest.
  { pose proof (flush_frame_super_flushProperties hooks (log w) (microtasks w)
                  (__dataInvalid (mixin w)) (__dataReady (mixin w))
                  (_root (el w)) (length (promises w))).
    repeat first [ done | flush_frame_tac ]. }
  unfold _flushProperties. unfold bind at 1 2, modify at 1 2. intros Hrun.
  eapply Hrest; [|exact Hrun].
  repeat (split; [done|]). exists []. by rewrite app_nil_r.
Qed.

(** With hooks that return, a flush returns, with [__isChanging] false and
    no resolver left. *)
Lemma flushProperties_settles (hooks : Hooks) (w : World) :
  hooks_return hooks →
  ∃ w', _flushProperties hooks w = (Normal tt, w') ∧
        __isChanging (el w') = false ∧
        __resolveRenderComplete (el w') = None.
Proof.
  intros [Hrender HdidRender].
  destruct (Hrender (__data (mixin w))) as [result Hresult].
  unfold _flushProperties, super__flushProperties, _shouldPropertiesChange,
    _propertiesChanged, super__propertiesChanged, _applyRender,
    call___resolveRenderComplete, resolveRenderComplete_closure, resolve,
    emit, lift, when, bind, gets, modify, ret; simpl.
  destruct (_shouldRender hooks _ _ _); simpl.
  - rewrite Hresult.
    destruct result as [res|], (_root (el w)) as [root|] eqn:Hroot; simpl;
      rewrite ?Hroot, HdidRender; simpl;
      destruct (__resolveRenderComplete (el w)) as [p|] eqn:Hr; simpl;
      rewrite ?Hr; simpl; eexists; (split; [reflexivity|]); done.
  - destruct (__resolveRenderComplete (el w)) as [p|] eqn:Hr; simpl;
      rewrite ?Hr; simpl; eexists; (split; [reflexivity|]); done.
Qed.

(** ** What each action does *)

Lemma bind_inv {S A B} (m : M S A) (k : A → M S B) (s s' : S)
    (r : Completion B) :
  bind m k s = (r, s') →
  (∃ a s1, m s = (Normal a, s1) ∧ k a s1 = (r, s')) ∨
  (∃ e, m s = (Throw e, s') ∧ r = Throw e).
Proof.
  unfold bind. destruct (m s) as [[a|e] s1].
  - intros Hk. left. eauto.
  - intros [= <- <-]. right. eauto.
Qed.

Lemma flushes_queued_app (q1 q2 : list Microtask) :
  flushes_queued (q1 ++ q2) = flushes_queued q1 + flushes_queued q2.
Proof. unfold flushes_queued. by rewrite List.filter_app, length_app. Qed.

Lemma flushes_queued_elem_of (q : list Microtask) :
  0 < flushes_queued q → FlushTask ∈ q.
Proof.
  induction q as [|[] q IH]; unfold flushes_queued; simpl; [lia| |].
  - intros H. apply elem_of_cons. right. by apply IH.
  - intros _. apply elem_of_cons. by left.
Qed.

Lemma flushes_queued_none (q : list Microtask) :
  flushes_queued q = 0 → FlushTask ∉ q.
Proof.
  induction q as [|[] q IH]; unfold flushes_queued; simpl.
  - intros _ Hin. inversion Hin.
  - intros Hq [Hne|Hin]%elem_of_cons; [done|]. by apply IH.
  - done.
Qed.

Lemma invalidateProperties_effect (w : World) :
  _invalidateProperties w
  = (Normal tt,
     if __dataInvalid (mixin w) || negb (__dataReady (mixin w))
     then with_el (set___isInvalid true) w
     else with_microtasks (λ q, q ++ [FlushTask])
            (with_mixin (λ m, mkMixin (__data m) (__dataPending m)
                                      (__dataOld m) true (__dataReady m))
               (with_el (set___isInvalid true) w))).
Proof.
  unfold _invalidateProperties, super__invalidateProperties, queueMicrotask,
    when, bind, gets, modify, ret; simpl.
  by destruct (__dataInvalid (mixin w)), (__dataReady (mixin w)).
Qed.

Lemma renderComplete_effect (w : World) :
  renderComplete w
  = match __renderComplete (el w) with
    | Some p => (Normal p, w)
    | None =>
        let w1 :=
          with_el (set___renderComplete (Some (length (promises w))))
            (with_el (set___resolveRenderComplete (Some (length (promises w))))
               (with_promises (λ ps, ps ++ [None]) w)) in
        (Normal (length (promises w)),
         if __isInvalid (el w) then w1
         else with_microtasks (λ q, q ++ [ResolveRenderCompleteFalse]) w1)
    end.
Proof.
  unfold renderComplete, new_promise, queueMicrotask, when, bind, gets,
    modify, ret.
  destruct (__renderComplete (el w)); [done|]. simpl.
  by destruct (__isInvalid (el w)).
Qed.

Lemma call_resolver_effect (value : bool) (w : World) :
  call___resolveRenderComplete value w
  = match __resolveRenderComplete (el w) with
    | Some p =>
        (Normal tt,
         with_promises (settle p value)
           (with_log (λ l, l ++ [EvResolve p value])
              (with_el (set___resolveRenderComplete None)
                 (with_el (set___renderComplete None) w))))
    | None =>
        (Throw (TypeError "this.__resolveRenderComplete is not a function"), w)
    end.
Proof.
  unfold call___resolveRenderComplete, resolveRenderComplete_closure, resolve,
    emit, bind, gets, modify, throw.
  by destruct (__resolveRenderComplete (el w)).
Qed.

Lemma setProperty_effect (property : string) (value : JsValue) (w : World) :
  ∃ w1, _setProperty property value w = (Normal tt, w1) ∧
    (w1 = w ∨
     ∃ w0, _invalidateProperties w0 = (Normal tt, w1) ∧
           el w0 = el w ∧ promises w0 = promises w ∧
           microtasks w0 = microtasks w ∧
           __dataInvalid (mixin w0) = __dataInvalid (mixin w) ∧
           __dataReady (mixin w0) = __dataReady (mixin w) ∧
           (log w0 = log w ∨
            __isChanging (el w) = true ∧
            log w0 = log w ++ [EvConsoleTrace property value])).
Proof.
  unfold _setProperty, _shouldPropertyChange, emit, when, bind, gets, modify,
    ret. simpl.
  destruct (super__shouldPropertyChange _ _ _); simpl.
  - destruct (__isChanging (el w)) eqn:Hc; simpl;
      rewrite invalidateProperties_effect;
      (eexists; split; [reflexivity|]); right;
      (eexists; split; [apply invalidateProperties_effect|]); simpl;
      repeat (split; [done|]); [right|left]; done.
  - exists w. split; [done|]. by left.
Qed.

(** [ready]: refused by the platform before anything is done, or the
    first flush followed, when it returns, by [_firstRendered]. *)
Lemma ready_effect (hooks : Hooks) (w : World) :
  ready hooks w
  = if attach_refused hooks w then (Throw (Error "NotSupportedError"), w)
    else match _flushProperties hooks (ready_start hooks w) with
         | (Normal _, w1) =>
             (Normal tt, with_log (λ l, l ++ [Ev_firstRendered]) w1)
         | (Throw e, w1) => (Throw e, w1)
         end.
Proof.
  unfold ready, call__createRoot, super_ready, _firstRendered, emit,
    attach_refused, ready_start, bind, gets, modify, throw, ret.
  destruct (isShadowRoot (_createRoot hooks) && hosts_shadowRoot (el w));
    [done|].
  by destruct (_flushProperties hooks _) as [[[]|e] w1].
Qed.

(** One turn of the event loop. *)
Lemma next_microtask_perform (hooks : Hooks) (w : World) :
  perform hooks NextMicrotask w
  = match microtasks w with
    | [] => (Normal tt, w)
    | ResolveRenderCompleteFalse :: q =>
        call___resolveRenderComplete false (with_microtasks (λ _, q) w)
    | FlushTask :: q =>
        if __dataInvalid (mixin w) then _flushProperties hooks (flush_start q w)
        else (Normal tt, with_microtasks (λ _, q) w)
    end.
Proof.
  simpl. unfold bind at 1, gets at 1.
  destruct (microtasks w) as [|[] q]; [done|done|].
  unfold bind at 1, modify at 1. simpl. unfold bind at 1, gets at 1. simpl.
  destruct (__dataInvalid (mixin w)); [|done].
  simpl. unfold bind at 1, modify at 1. done.
Qed.

(** ** Invalidation and the scheduled flush *)

Lemma schedule_invalidate (w0 w : World) :
  el w0 = el w → microtasks w0 = microtasks w →
  __dataInvalid (mixin w0) = __dataInvalid (mixin w) →
  __dataReady (mixin w0) = __dataReady (mixin w) →
  schedule_consistent w →
  schedule_consistent (_invalidateProperties w0).2 ∧
  __dataReady (mixin (_invalidateProperties w0).2) = __dataReady (mixin w).
Proof.
  intros Hel Hq Hb Hr (H1 & H2 & H3).
  rewrite invalidateProperties_effect. simpl. rewrite Hb, Hr.
  destruct (__dataInvalid (mixin w)) eqn:Hscheduled,
    (__dataReady (mixin w)) eqn:Hready; simpl;
    unfold schedule_consistent; simpl;
    rewrite ?Hel, ?Hq, ?Hb, ?Hr, ?Hscheduled, ?Hready;
    (split; [|done]).
  - done.
  - by destruct (H2 eq_refl).
  - split; [done|]. split; [done|]. rewrite flushes_queued_app, H3. done.
  - split; [done|]. split; [by apply H2|done].
Qed.

(** Each action keeps the schedule consistent, and the mixin is ready
    afterwards exactly when it was before or the action is [ready]. *)
Lemma schedule_perform (hooks : Hooks) (a : Action) (w w' : World)
    (r : Completion unit) :
  schedule_consistent w → perform hooks a w = (r, w') →
  schedule_consistent w' ∧
  (__dataReady (mixin w') = true
   ↔ __dataReady (mixin w) = true ∨ a = CallReady).
Proof.
  intros Hw. pose proof Hw as (H1 & H2 & H3). destruct a.
  - simpl. unfold bind. rewrite renderComplete_effect.
    destruct (__renderComplete (el w)); simpl; intros [= <- <-].
    { split; [done|]. split; [by left|by intros [?|?]]. }
    destruct (__isInvalid (el w)) eqn:Hi; (split; [|split; [by left|by intros [?|?]]]);
      unfold schedule_consistent; simpl; rewrite ?Hi; split_and!; try done.
    rewrite flushes_queued_app, H3. unfold flushes_queued. simpl. lia.
  - simpl. unfold _requestRender. intros Hrun.
    destruct (schedule_invalidate w w eq_refl eq_refl eq_refl eq_refl Hw)
      as [Hs Hr].
    rewrite Hrun in Hs, Hr. simpl in Hs, Hr. split; [done|].
    rewrite Hr. split; [by left|by intros [?|?]].
  - simpl. rewrite ready_effect.
    destruct (attach_refused hooks w) eqn:Hrefused.
    + intros [= <- <-]. split; [done|]. split; [by left|intros _].
      destruct (__dataReady (mixin w)) eqn:Hready; [done|].
      destruct (H2 eq_refl) as [_ Hroot]. revert Hrefused.
      unfold attach_refused, hosts_shadowRoot. rewrite Hroot.
      by rewrite andb_false_r.
    + destruct (_flushProperties hooks (ready_start hooks w)) as [r1 w1]
        eqn:Hflush.
      apply flushProperties_frame in Hflush
        as (Hq1 & Hb1 & Hr1 & Hi1 & _).
      simpl in Hq1, Hb1, Hr1.
      assert (schedule_consistent w1 ∧ __dataReady (mixin w1) = true)
        as [Hs1 Hready1].
      { split; [|done]. unfold schedule_consistent.
        rewrite Hi1, Hr1, Hq1, Hb1. done. }
      destruct r1 as [[]|e]; intros [= <- <-]; (split; [done|]);
        simpl; rewrite Hready1; (split; [by right|done]).
  - simpl.
    destruct (setProperty_effect property value w)
      as (w1 & -> & [->|(w0 & Hw1 & Hel & _ & Hq0 & Hb0 & Hr0 & _)]);
      intros [= <- <-].
    { split; [done|]. split; [by left|by intros [?|?]]. }
    destruct (schedule_invalidate w0 w Hel Hq0 Hb0 Hr0 Hw) as [Hs Hr].
    rewrite Hw1 in Hs, Hr. simpl in Hs, Hr. split; [done|].
    rewrite Hr. split; [by left|by intros [?|?]].
  - rewrite next_microtask_perform.
    destruct (microtasks w) as [|[] q] eqn:Hqueue.
    + intros [= <- <-]. split; [done|]. split; [by left|by intros [?|?]].
    + rewrite call_resolver_effect. simpl.
      destruct (__resolveRenderComplete (el w)); intros [= <- <-];
        (split; [|split; [by left|by intros [?|?]]]);
        unfold schedule_consistent; simpl; rewrite ?Hqueue; done.
    + assert (__dataInvalid (mixin w) = true ∧ flushes_queued q = 0)
        as [Hb Hq0].
      { unfold flushes_queued in *. simpl in H3.
        destruct (__dataInvalid (mixin w)); split; auto; lia. }
      assert (__dataReady (mixin w) = true) as Hready.
      { destruct (__dataReady (mixin w)) eqn:Hready; [done|].
        destruct (H2 eq_refl). congruence. }
      rewrite Hb. intros Hflush.
      apply flushProperties_frame in Hflush
        as (Hq1 & Hb1 & Hr1 & Hi1 & _).
      simpl in Hq1, Hb1, Hr1. split.
      * unfold schedule_consistent. rewrite Hi1, Hr1, Hq1, Hb1, Hready. done.
      * rewrite Hr1. split; [by left|by intros [?|?]].
Qed.

Lemma schedule_step (hooks : Hooks) (w : World) (a : Action) :
  schedule_consistent w →
  schedule_consistent (step hooks w a) ∧
  (__dataReady (mixin (step hooks w a)) = true
   ↔ __dataReady (mixin w) = true ∨ a = CallReady).
Proof.
  intros Hw. unfold step.
  destruct (perform hooks a w) as [[[]|e] w'] eqn:Hrun;
    destruct (schedule_perform hooks a w w' _ Hw Hrun) as [Hs Hr];
    (split; [exact Hs|exact Hr]).
Qed.

Lemma schedule_run (hooks : Hooks) (actions : list Action) (w : World) :
  schedule_consistent w →
  schedule_consistent (run hooks actions w) ∧
  (__dataReady (mixin (run hooks actions w)) = true
   ↔ __dataReady (mixin w) = true ∨ CallReady ∈ actions).
Proof.
  revert w. induction actions as [|a actions IH]; intros w Hw; simpl.
  - split; [done|]. split; [by left|]. intros [?|Hin]; [done|inversion Hin].
  - destruct (schedule_step hooks w a Hw) as [Hstep Hready].
    destruct (IH _ Hstep) as [Hrun Hrest]. split; [done|].
    rewrite Hrest, Hready, elem_of_cons. intuition congruence.
Qed.

Lemma schedule_new_World (name : string) (props : Props) :
  schedule_consistent (new_World name props).
Proof. by split_and!. Qed.

(** X7: in every execution, with any hooks (also throwing ones), the
    microtask queue never holds more than one flush; once [ready] has been
    called, a flush is queued whenever [__isInvalid] is true - an
    invalidation is never left without the flush that will clear it; and
    before [ready] is called no flush is ever queued, whatever is
    requested. *)
Theorem invalid_has_flush_queued (hooks : Hooks) (actions : list Action)
    (name : string) (props : Props) :
  let w := run hooks actions (new_World name props) in
  (flushes_queued (microtasks w) ≤ 1)%nat ∧
  (CallReady ∈ actions → __isInvalid (el w) = true →
   FlushTask ∈ microtasks w) ∧
  (CallReady ∉ actions → FlushTask ∉ microtasks w).
Proof.
  intros w.
  destruct (schedule_run hooks actions (new_World name props)
              (schedule_new_World name props))
    as [(H1 & H2 & H3) Hready].
  fold w in H1, H2, H3, Hready. split_and!.
  - rewrite H3. destruct (__dataInvalid (mixin w)); lia.
  - intros Hcalled Hinvalid. apply flushes_queued_elem_of.
    rewrite H3, H1; [lia| |done]. apply Hready. by right.
  - intros Hnot. apply flushes_queued_none. rewrite H3.
    destruct (__dataReady (mixin w)) eqn:Hr.
    + destruct (proj1 Hready eq_refl) as [Hnew|Hin]; [by inversion Hnew|done].
    + by destruct (H2 eq_refl) as [-> _].
Qed.

(** ** Hooks that return: no stuck flag, no lost promise *)

Lemma flush_event_not_trace (events : list Event) :
  Forall (λ e, flush_event e = true) events →
  Forall (λ e, is_trace e = false) events.
Proof. intros H. eapply Forall_impl; [exact H|]. by intros []. Qed.

(** A flush under returning hooks, with all it is known to do. *)
Lemma flushProperties_returns (hooks : Hooks) (w : World) :
  hooks_return hooks →
  ∃ w', _flushProperties hooks w = (Normal tt, w') ∧
        __isChanging (el w') = false ∧
        __resolveRenderComplete (el w') = None ∧
        flush_frame (log w) (microtasks w) (__dataInvalid (mixin w))
                    (__dataReady (mixin w)) (_root (el w))
                    (length (promises w)) w'.
Proof.
  intros Hhooks.
  destruct (flushProperties_settles hooks w Hhooks) as (w' & Hrun & ? & ?).
  exists w'. repeat (split; [done|]). by eapply flushProperties_frame.
Qed.

Lemma quiet_flush (hooks : Hooks) (w w' : World) (r : Completion unit) :
  hooks_return hooks → Forall (λ e, is_trace e = false) (log w) →
  _flushProperties hooks w = (r, w') → r = Normal tt ∧ quiet w'.
Proof.
  intros Hhooks Hlog Hrun.
  destruct (flushProperties_returns hooks w Hhooks)
    as (w1 & Hflush & Hc1 & _ & _ & _ & _ & _ & _ & _ & events & Hlog1 & Hev).
  rewrite Hrun in Hflush. injection Hflush as -> ->. split; [done|].
  split; [done|]. rewrite Hlog1. apply Forall_app. split; [done|].
  by apply flush_event_not_trace.
Qed.

Lemma quiet_perform (hooks : Hooks) (a : Action) :
  hooks_return hooks → preserves quiet (perform hooks a).
Proof.
  intros Hhooks w r w' [Hc Hlog]. destruct a.
  - simpl. unfold bind. rewrite renderComplete_effect.
    destruct (__renderComplete (el w)); simpl; intros [= <- <-]; [done|].
    by destruct (__isInvalid (el w)).
  - simpl. unfold _requestRender. rewrite invalidateProperties_effect.
    intros [= <- <-]. by destruct (_ || _).
  - simpl. rewrite ready_effect.
    destruct (attach_refused hooks w); [by intros [= <- <-]|].
    destruct (_flushProperties hooks (ready_start hooks w)) as [r1 w1]
      eqn:Hflush.
    apply quiet_flush in Hflush as [-> [Hc1 Hlog1]]; [|done..].
    intros [= <- <-]. split; [done|]. simpl.
    apply Forall_app. split; [done|]. by apply Forall_singleton.
  - simpl.
    destruct (setProperty_effect property value w)
      as (w1 & -> & [->|(w0 & Hw1 & Hel & _ & _ & _ & _ & Hlog0)]);
      intros [= <- <-]; [done|].
    rewrite invalidateProperties_effect in Hw1. injection Hw1 as <-.
    destruct Hlog0 as [Hlog0|[? _]]; [|congruence].
    destruct (_ || _); split; simpl; rewrite ?Hel, ?Hlog0; done.
  - rewrite next_microtask_perform.
    destruct (microtasks w) as [|[] q] eqn:Hqueue; [by intros [= <- <-]| |].
    + rewrite call_resolver_effect. simpl.
      destruct (__resolveRenderComplete (el w)); intros [= <- <-];
        split; simpl; try done.
      apply Forall_app. split; [done|]. by apply Forall_singleton.
    + destruct (__dataInvalid (mixin w)); [|by intros [= <- <-]].
      intros Hflush. by apply quiet_flush in Hflush as [_ ?].
Qed.

Lemma quiet_run (hooks : Hooks) (actions : list Action) (w : World) :
  hooks_return hooks → quiet w → quiet (run hooks actions w).
Proof.
  intros Hhooks. revert w.
  induction actions as [|a actions IH]; intros w Hw; simpl; [done|].
  apply IH. unfold step.
  destruct (perform hooks a w) as [[[]|e] w'] eqn:Hrun.
  - by eapply quiet_perform.
  - destruct (quiet_perform hooks a Hhooks w _ w' Hw Hrun) as [Hc Hlog].
    split; [done|]. simpl. apply Forall_app. split; [done|].
    by apply Forall_singleton.
Qed.

(** X8: with hooks that never throw, [__isChanging] is false whenever the
    element is between two actions, so setting a property never logs the
    "considered harmful" trace - in the model, where a hook does not set
    properties itself, the trace can only follow a flush that threw. *)
Theorem no_trace_when_hooks_return (hooks : Hooks) (actions : list Action)
    (name : string) (props : Props) :
  hooks_return hooks →
  let w := run hooks actions (new_World name props) in
  __isChanging (el w) = false ∧
  ∀ property value, EvConsoleTrace property value ∉ log w.
Proof.
  intros Hhooks w.
  assert (quiet w) as [Hc Hlog].
  { apply quiet_run; [done|]. split; [done|]. apply Forall_nil_2. }
  split; [done|]. intros property value Hin.
  rewrite Forall_forall in Hlog. by apply Hlog in Hin.
Qed.

Lemma rendering_hooks_return : hooks_return rendering_hooks.
Proof. split; intros; simpl; eauto. Qed.

Lemma no_trace_when_hooks_return_witness :
  __isChanging
    (el (run rendering_hooks
             [CallReady; SetProperty "title" (VStr "a"); NextMicrotask]
             (new_World "x-el" ∅))) = false ∧
  ∀ property value,
    EvConsoleTrace property value
    ∉ log (run rendering_hooks
               [CallReady; SetProperty "title" (VStr "a"); NextMicrotask]
               (new_World "x-el" ∅)).
Proof.
  apply (no_trace_when_hooks_return rendering_hooks
           [CallReady; SetProperty "title" (VStr "a"); NextMicrotask]
           "x-el" ∅).
  exact rendering_hooks_return.
Defined.

(** A flush under returning hooks leaves no signal behind. *)
Lemma flushProperties_clears (hooks : Hooks) (w w' : World)
    (r : Completion unit) :
  hooks_return hooks → signal_consistent w →
  _flushProperties hooks w = (r, w') → __renderComplete (el w') = None.
Proof.
  intros Hhooks Hs Hrun.
  destruct (flushProperties_settles hooks w Hhooks) as (w1 & Hrun1 & _ & Hres).
  rewrite Hrun in Hrun1. injection Hrun1 as -> ->.
  destruct (signal_flushProperties hooks w _ _ Hs Hrun) as [Hagree _].
  by rewrite <- Hagree.
Qed.

Lemma awaited_perform (hooks : Hooks) (a : Action) (w w' : World)
    (r : Completion unit) :
  hooks_return hooks →
  signal_consistent w → schedule_consistent w → signal_awaited w →
  perform hooks a w = (r, w') → signal_awaited w'.
Proof.
  intros Hhooks Hs (H1 & H2 & H3) Ha. destruct a.
  - simpl. unfold bind. rewrite renderComplete_effect.
    destruct (__renderComplete (el w)) eqn:Hp; simpl; intros [= <- <-];
      [done|].
    destruct (__isInvalid (el w)) eqn:Hi; intros _; simpl.
    + by right.
    + left. apply elem_of_app. right. constructor.
  - simpl. unfold _requestRender. rewrite invalidateProperties_effect.
    intros [= <- <-] _. right. by destruct (_ || _).
  - simpl. rewrite ready_effect.
    destruct (attach_refused hooks w); [by intros [= <- <-]|].
    destruct (_flushProperties hooks (ready_start hooks w)) as [r1 w1]
      eqn:Hflush.
    assert (__renderComplete (el w1) = None) as Hnone.
    { eapply flushProperties_clears; [done| |exact Hflush].
      by eapply signal_consistent_frame; [..|exact Hs]. }
    destruct r1 as [[]|e]; intros [= <- <-] Hne; by destruct Hne.
  - simpl.
    destruct (setProperty_effect property value w)
      as (w1 & -> & [->|(w0 & Hw1 & _)]);
      intros [= <- <-]; [done|].
    rewrite invalidateProperties_effect in Hw1. injection Hw1 as <-.
    intros _. right. by destruct (_ || _).
  - rewrite next_microtask_perform.
    destruct (microtasks w) as [|[] q] eqn:Hqueue.
    + by intros [= <- <-].
    + rewrite call_resolver_effect. simpl.
      destruct Hs as [Hagree _].
      destruct (__resolveRenderComplete (el w)); intros [= <- <-] Hne;
        simpl in Hne; [done|]. by rewrite Hagree in Hne.
    + assert (__dataInvalid (mixin w) = true) as ->.
      { unfold flushes_queued in H3. simpl in H3.
        destruct (__dataInvalid (mixin w)); [done|lia]. }
      intros Hflush Hne. exfalso. apply Hne.
      eapply flushProperties_clears; [done| |exact Hflush].
      by eapply signal_consistent_frame; [..|exact Hs].
Qed.

Lemma awaited_run (hooks : Hooks) (actions : list Action) (w : World) :
  hooks_return hooks →
  settled_or_awaited w → settled_or_awaited (run hooks actions w).
Proof.
  intros Hhooks. revert w.
  induction actions as [|a actions IH]; intros w (Hs & Hq & Ha); simpl;
    [done|].
  apply IH. split; [by apply signal_step|].
  split; [by apply schedule_step|].
  unfold step.
  destruct (perform hooks a w) as [[[]|e] w'] eqn:Hrun.
  - by eapply awaited_perform.
  - by eapply (awaited_perform hooks a w w').
Qed.

Lemma awaited_new_World (name : string) (props : Props) :
  settled_or_awaited (new_World name props).
Proof.
  split; [apply signal_new_World|]. split; [apply schedule_new_World|].
  intros Hne. by destruct Hne.
Qed.





(** ** A requested render reports its outcome *)

Lemma no_callback_queue (q : list Microtask) :
  ResolveRenderCompleteFalse ∉ q → q = replicate (flushes_queued q) FlushTask.
Proof.
  induction q as [|[] q IH]; intros Hq; [done| |].
  - destruct Hq. apply elem_of_cons. by left.
  - unfold flushes_queued in *. simpl. f_equal. apply IH.
    intros Hin. apply Hq. apply elem_of_cons. by right.
Qed.

Lemma step_Normal (hooks : Hooks) (a : Action) (w w' : World) :
  perform hooks a w = (Normal tt, w') → step hooks w a = w'.
Proof. unfold step. by intros ->. Qed.

(** A flush under returning hooks settles the awaited promise with the
    verdict of [_shouldRender], and calls [_render] exactly when the
    verdict is true. *)
Lemma flushProperties_verdict (hooks : Hooks) (w : World) (p : PromiseId) :
  hooks_return hooks →
  __resolveRenderComplete (el w) = Some p →
  promises w !! p = Some None →
  ∃ w' events,
    _flushProperties hooks w = (Normal tt, w') ∧
    promises w' !! p
    = Some (Some (_shouldRender hooks (__data (mixin w))
                    (__dataPending (mixin w)) (__dataOld (mixin w)))) ∧
    log w' = log w ++ events
             ++ [EvResolve p (_shouldRender hooks (__data (mixin w))
                                (__dataPending (mixin w))
                                (__dataOld (mixin w)))] ∧
    (Ev_render (__data (mixin w)) ∈ events
     ↔ _shouldRender hooks (__data (mixin w)) (__dataPending (mixin w))
                     (__dataOld (mixin w)) = true).
Proof.
  intros [Hrender HdidRender] Hr Hp.
  destruct (Hrender (__data (mixin w))) as [result Hresult].
  assert (∀ value, settle p value (promises w) !! p = Some (Some value))
    as Hsettle.
  { intros value. unfold settle. rewrite Hp.
    apply list_lookup_insert_eq. by eapply lookup_lt_Some. }
  unfold _flushProperties, super__flushProperties, _shouldPropertiesChange,
    _propertiesChanged, super__propertiesChanged, _applyRender,
    call___resolveRenderComplete, resolveRenderComplete_closure, resolve,
    emit, lift, when, bind, gets, modify, ret; simpl.
  rewrite Hr.
  destruct (_shouldRender hooks (__data (mixin w)) (__dataPending (mixin w))
              (__dataOld (mixin w))) eqn:Hverdict; simpl.
  - rewrite Hresult.
    destruct result as [res|], (_root (el w)) as [root|] eqn:Hroot; simpl;
      rewrite ?Hroot, HdidRender; simpl; repeat (rewrite Hr; simpl).
    1: eexists _, [EvMixinPropertiesChanged _ _ _; Ev_render _;
                   EvTemplateRender _ _ _; Ev_didRender _ _ _].
    2-4: eexists _, [EvMixinPropertiesChanged _ _ _; Ev_render _;
                     Ev_didRender _ _ _].
    all: split; [reflexivity|]; simpl.
    all: split; [apply Hsettle|].
    all: split; [by rewrite <- !app_assoc|].
    all: split; [done|intros _].
    all: apply elem_of_cons; right; apply elem_of_cons; by left.
  - rewrite Hr. simpl. eexists _, []. split; [reflexivity|]. simpl.
    split; [apply Hsettle|]. split; [done|]. split; [|done].
    intros Hin. inversion Hin.
Qed.

(** X10: once [ready] has been called, when no stale deferred callback is
    queued and the hooks do not throw, a render request followed by a read
    of [renderComplete] gives a promise that the next microtask settles
    with the verdict of [_shouldRender] on the element's properties: true
    after a render ([_render] is called), false after a veto ([_render] is
    not called). *)
Theorem requested_render_reports_verdict (hooks : Hooks)
    (actions : list Action) (name : string) (props : Props) :
  hooks_return hooks →
  CallReady ∈ actions →
  let w := run hooks actions (new_World name props) in
  ResolveRenderCompleteFalse ∉ microtasks w →
  let p := default (length (promises w)) (__renderComplete (el w)) in
  let verdict := _shouldRender hooks (__data (mixin w))
                   (__dataPending (mixin w)) (__dataOld (mixin w)) in
  let w' := run hooks [CallRequestRender; ReadRenderComplete; NextMicrotask]
                w in
  promises w' !! p = Some (Some verdict) ∧
  microtasks w' = [] ∧
  ∃ events, log w' = log w ++ events ++ [EvResolve p verdict] ∧
            (Ev_render (__data (mixin w)) ∈ events ↔ verdict = true).
Proof.
  intros Hhooks Hcalled w Hstale p verdict w'.
  assert (settled_or_awaited w) as (Hs & (H1 & H2 & H3) & _)
    by (by apply awaited_run, awaited_new_World).
  assert (__dataReady (mixin w) = true) as Hready
    by (apply schedule_run; [apply schedule_new_World|by right]).
  pose proof (no_callback_queue _ Hstale) as Hqueue.
  (* the state when the microtask starts its flush *)
  set (requested :=
         with_microtasks (λ _, [FlushTask])
           (with_mixin (λ m, mkMixin (__data m) (__dataPending m)
                                     (__dataOld m) true true)
              (with_el (set___isInvalid true) w))).
  assert (step hooks w CallRequestRender = requested) as Hstep1.
  { apply step_Normal. simpl. unfold _requestRender.
    rewrite invalidateProperties_effect. f_equal.
    rewrite H3 in Hqueue. unfold requested. rewrite Hready.
    destruct (__dataInvalid (mixin w)) eqn:Hscheduled; simpl.
    - unfold with_microtasks, with_mixin, with_el. simpl.
      rewrite Hqueue. simpl. f_equal.
      destruct (mixin w); simpl in *; by subst.
    - unfold with_microtasks, with_mixin, with_el. simpl.
      by rewrite ?Hready, Hqueue. }
  set (awaited :=
         match __renderComplete (el w) with
         | Some _ => requested
         | None =>
             with_el (set___renderComplete (Some (length (promises w))))
               (with_el (set___resolveRenderComplete
                           (Some (length (promises w))))
                  (with_promises (λ ps, ps ++ [None]) requested))
         end).
  assert (step hooks requested ReadRenderComplete = awaited) as Hstep2.
  { apply step_Normal. simpl. unfold bind. rewrite renderComplete_effect.
    unfold awaited. simpl. by destruct (__renderComplete (el w)). }
  assert (__resolveRenderComplete (el awaited) = Some p
          ∧ promises awaited !! p = Some None) as [Hr Hp].
  { destruct Hs as (Hagree & Hpending & _). unfold awaited, p.
    destruct (__renderComplete (el w)) as [q|] eqn:Hrc; simpl.
    - split; [by rewrite Hagree|]. by apply Hpending.
    - split; [done|]. by apply list_lookup_middle. }
  destruct (flushProperties_verdict hooks (flush_start [] awaited) p Hhooks)
    as (w3 & events & Hflush & Hp3 & Hlog3 & Hrender).
  { done. }
  { done. }
  assert (step hooks awaited NextMicrotask = w3) as Hstep3.
  { apply step_Normal. rewrite next_microtask_perform.
    assert (microtasks awaited = [FlushTask]) as ->
      by (unfold awaited; by destruct (__renderComplete (el w))).
    assert (__dataInvalid (mixin awaited) = true) as ->
      by (unfold awaited; by destruct (__renderComplete (el w))).
    exact Hflush. }
  assert (w' = w3) as ->.
  { unfold w'. simpl. by rewrite Hstep1, Hstep2, Hstep3. }
  assert (mixin awaited
          = mkMixin (__data (mixin w)) (__dataPending (mixin w))
                    (__dataOld (mixin w)) true true
          ∧ log awaited = log w) as [Hmixin Hlog]
    by (unfold awaited; by destruct (__renderComplete (el w))).
  simpl in Hp3, Hlog3, Hrender. rewrite Hmixin in Hp3, Hlog3, Hrender.
  simpl in Hp3, Hlog3, Hrender. rewrite Hlog in Hlog3.
  split; [done|]. split.
  - by apply flushProperties_frame in Hflush as (-> & _).
  - by exists events.
Qed.

Lemma requested_render_reports_verdict_witness :
  let w := run rendering_hooks [CallReady] (new_World "x-el" ∅) in
  let w' := run rendering_hooks
              [CallRequestRender; ReadRenderComplete; NextMicrotask] w in
  promises w' !! 0 = Some (Some true) ∧
  microtasks w' = [] ∧
  ∃ events, log w' = log w ++ events ++ [EvResolve 0 true] ∧
            (Ev_render ∅ ∈ events ↔ true = true).
Proof.
  apply (requested_render_reports_verdict rendering_hooks [CallReady]
           "x-el" ∅ rendering_hooks_return).
  - apply elem_of_cons. by left.
  - vm_compute. intros Hin. inversion Hin.
Defined.

(** ** The first render: [ready] *)



(** A second [ready] on an element of the base class is refused. *)
Example ready_twice_refused :
  (ready rendering_hooks
     (run rendering_hooks [CallReady] (new_World "x-el" ∅))).1
  = Throw (Error "NotSupportedError").
Proof. reflexivity. Qed.

(* ===================================================================== *)
(** * Member migration: when it fails and what it never touches *)
(* ===================================================================== *)

Lemma returns_iff_migratable (newClass hmrClass : JsObject) :
  (∃ hmrClass',
     updateObjectMembers newClass hmrClass = (Normal tt, hmrClass'))
  ↔ migratable hmrClass newClass = true.
Proof.
  split.
  - intros [o' Hrun].
    destruct (migratable hmrClass newClass) eqn:Hm; [done|].
    destruct (updateObjectMembers_throws _ _ Hm) as (e & o2 & Hthrow).
    congruence.
  - intros Hm. by apply updateObjectMembers_returns, migratable_can_define.
Qed.

(** X12: [updateObjectMembers] returns exactly when no [defineProperty] of
    the copy must be refused ([migratable]): the target has no
    non-configurable property under a name that is configurable on the
    source, and is extensible if the source brings a new name.  Otherwise
    it throws. *)
Theorem updateObjectMembers_returns_iff (newClass hmrClass : JsObject) :
  (∃ hmrClass',
     updateObjectMembers newClass hmrClass = (Normal tt, hmrClass'))
  ∧ migratable hmrClass newClass = true
  ∨ (∃ e hmrClass',
       updateObjectMembers newClass hmrClass = (Throw e, hmrClass'))
    ∧ migratable hmrClass newClass = false.
Proof.
  destruct (migratable hmrClass newClass) eqn:Hm.
  - left. split; [|done]. by apply returns_iff_migratable.
  - right. split; [|done]. by apply updateObjectMembers_throws.
Qed.

Lemma copy_member_error (newClass : JsObject) (prop : string) (o o' : JsObject)
    (e : JsError) :
  copy_member newClass prop o = (Throw e, o') → ∃ message, e = TypeError message.
Proof.
  unfold copy_member, getOwnPropertyDescriptor, when, ret, defineProperty,
    bind, get, modify, throw.
  destruct (props newClass !! prop) as [d|]; [|done].
  destruct (configurable d); [|done].
  destruct (props o !! prop) as [c|].
  - destruct (configurable c || compatible_redefinition c d);
      intros [= <- <-]; eauto.
  - destruct (extensible o); intros [= <- <-]; eauto.
Qed.

Lemma copy_loop_error (newClass : JsObject) (names : list string) :
  ∀ (o o' : JsObject) (e : JsError),
  for_of names (copy_member newClass) o = (Throw e, o') →
  ∃ message, e = TypeError message.
Proof.
  induction names as [|x names IH]; intros o o' e; simpl; [done|].
  unfold bind at 1.
  destruct (copy_member newClass x o) as [[[]|e1] o1] eqn:Hstep.
  - apply IH.
  - intros [= <- <-]. by eapply copy_member_error.
Qed.

(** X13: a call that throws has thrown a TypeError out of the copying
    loop and has deleted nothing: every own property of the target is as
    it was, or already carries the configurable descriptor the source has
    under that name - the migration is not undone, the target is left
    partly migrated. *)
Theorem updateObjectMembers_failure (newClass hmrClass hmrClass' : JsObject)
    (e : JsError) :
  updateObjectMembers newClass hmrClass = (Throw e, hmrClass') →
  (∃ message, e = TypeError message) ∧
  extensible hmrClass' = extensible hmrClass ∧
  ∀ k, props hmrClass' !! k = props hmrClass !! k ∨
       ∃ d, props newClass !! k = Some d ∧ configurable d = true ∧
            props hmrClass' !! k = Some d.
Proof.
  rewrite updateObjectMembers_unfold. unfold bind at 1.
  destruct (for_of _ (copy_member newClass) hmrClass) as [[[]|e1] o1] eqn:Hcopy.
  - destruct (cleanup_loop (getOwnPropertyNames newClass)
                (getOwnPropertyNames hmrClass) o1) as (o' & -> & _).
    done.
  - intros [= <- <-]. split; [by eapply copy_loop_error|].
    by eapply copy_loop_frame.
Qed.

Lemma updateObjectMembers_failure_witness :
  (∃ message, TypeError "Cannot redefine property" = TypeError message) ∧
  extensible pinned = extensible pinned ∧
  ∀ k, props pinned !! k = props pinned !! k ∨
       ∃ d, props replacement !! k = Some d ∧ configurable d = true ∧
            props pinned !! k = Some d.
Proof.
  apply (updateObjectMembers_failure replacement pinned pinned
           (TypeError "Cannot redefine property")).
  vm_compute. reflexivity.
Defined.

Lemma copy_member_fixed (newClass : JsObject) (prop : string) (o o' : JsObject)
    (r : Completion unit) (k : string) (c : PropertyDescriptor) :
  props o !! k = Some c → configurable c = false →
  copy_member newClass prop o = (r, o') → props o' !! k = Some c.
Proof.
  intros Hk Hc.
  unfold copy_member, getOwnPropertyDescriptor, when, ret.
  destruct (props newClass !! prop) as [d|]; [|by intros [= <- <-]].
  destruct (configurable d) eqn:Hd; [|by intros [= <- <-]].
  destruct (decide (prop = k)) as [->|Hne].
  - rewrite (defineProperty_refused k d c o) by done. by intros [= <- <-].
  - intros [(e & _ & ->)|[_ ->]]%defineProperty_result; [done|].
    simpl. by rewrite lookup_insert_ne.
Qed.

Lemma copy_loop_fixed (newClass : JsObject) (names : list string)
    (k : string) (c : PropertyDescriptor) :
  configurable c = false →
  ∀ (o o' : JsObject) (r : Completion unit),
  props o !! k = Some c →
  for_of names (copy_member newClass) o = (r, o') → props o' !! k = Some c.
Proof.
  intros Hc.
  induction names as [|x names IH]; intros o o' r Hk; simpl.
  - by intros [= <- <-].
  - unfold bind at 1.
    destruct (copy_member newClass x o) as [[[]|e] o1] eqn:Hstep.
    + apply IH. by eapply copy_member_fixed.
    + intros [= <- <-]. by eapply copy_member_fixed.
Qed.

(** X14: a non-configurable own property of the target is never changed
    and never removed, whatever the source holds under its name and
    however the call ends. *)
Theorem updateObjectMembers_keeps_fixed (newClass hmrClass hmrClass' : JsObject)
    (r : Completion unit) (k : string) (c : PropertyDescriptor) :
  props hmrClass !! k = Some c → configurable c = false →
  updateObjectMembers newClass hmrClass = (r, hmrClass') →
  props hmrClass' !! k = Some c.
Proof.
  intros Hk Hc. rewrite updateObjectMembers_unfold. unfold bind at 1.
  destruct (for_of _ (copy_member newClass) hmrClass) as [[[]|e] o1] eqn:Hcopy.
  - destruct (cleanup_loop (getOwnPropertyNames newClass)
                (getOwnPropertyNames hmrClass) o1) as (o' & -> & _ & Hclean).
    intros [= <- <-]. rewrite Hclean.
    rewrite (copy_loop_fixed _ _ _ _ Hc _ _ _ Hk Hcopy). simpl. rewrite Hc.
    by destruct (_ && _).
  - intros [= <- <-]. by eapply copy_loop_fixed.
Qed.

Lemma updateObjectMembers_keeps_fixed_witness :
  props (updateObjectMembers (prototype New) (prototype Old)).2
    !! "pinnedHelper"
  = Some (fixed_member (VRef 13)).
Proof.
  apply (updateObjectMembers_keeps_fixed (prototype New) (prototype Old) _
           (updateObjectMembers (prototype New) (prototype Old)).1).
  - vm_compute. reflexivity.
  - reflexivity.
  - by destruct (updateObjectMembers (prototype New) (prototype Old)).
Defined.

(** X15: migrating a second time from the same source returns and changes
    nothing more. *)
Theorem updateObjectMembers_twice (newClass hmrClass hmrClass' : JsObject) :
  updateObjectMembers newClass hmrClass = (Normal tt, hmrClass') →
  updateObjectMembers newClass hmrClass' = (Normal tt, hmrClass').
Proof.
  intros Hrun.
  pose proof (updateObjectMembers_lookup _ _ _ Hrun) as [_ Hy].
  assert (can_define hmrClass' newClass) as Hcan.
  { intros k d Hd Hconf. rewrite Hy, Hd. simpl. by rewrite Hconf. }
  destruct (updateObjectMembers_returns _ _ Hcan) as [y2 Hrun2].
  rewrite Hrun2. f_equal.
  apply updateObjectMembers_lookup in Hrun2 as [Hext2 Hy2].
  apply JsObject_eq; [done|]. intros k.
  by rewrite Hy2, Hy, migrated_migrated.
Qed.

Lemma updateObjectMembers_twice_witness :
  updateObjectMembers (prototype New)
    (updateObjectMembers (prototype New) (prototype Old)).2
  = (Normal tt, (updateObjectMembers (prototype New) (prototype Old)).2).
Proof.
  apply (updateObjectMembers_twice (prototype New) (prototype Old)).
  vm_compute. reflexivity.
Defined.

(** ** The static callback when a migration fails *)

(** X16: the static [hotReplaceCallback] is not atomic.  When it throws,
    [newClass] has been finalized all the same and [this] has not been
    finalized again; if the static members could not be migrated the
    prototype is untouched, and otherwise the static members are fully
    migrated and it is the prototype that could not be. *)
Theorem hotReplaceCallback_failure (finalize : JsClass → JsClass)
    (this newClass this' newClass' : JsClass) (e : JsError) :
  hotReplaceCallback finalize this newClass = (Throw e, this', newClass') →
  newClass' = finalize newClass ∧
  migrateClass newClass' this = (Throw e, this') ∧
  if migratable (statics this) (statics newClass')
  then updateObjectMembers (statics newClass') (statics this)
       = (Normal tt, statics this')
       ∧ migratable (prototype this) (prototype newClass') = false
  else prototype this' = prototype this.
Proof.
  unfold hotReplaceCallback. unfold bind at 1, modify.
  destruct (migrateClass (finalize newClass) this) as [[[]|e1] y] eqn:Hmig;
    [done|].
  intros [= <- <- <-]. do 2 (split; [done|]).
  revert Hmig. unfold migrateClass, bind, on_statics, on_prototype.
  destruct (updateObjectMembers (statics (finalize newClass)) (statics this))
    as [[[]|e2] s] eqn:Hs; simpl.
  - assert (migratable (statics this) (statics (finalize newClass)) = true)
      as -> by (apply returns_iff_migratable; eauto).
    destruct (updateObjectMembers (prototype (finalize newClass))
                (prototype this)) as [[[]|e3] p] eqn:Hp; simpl; [done|].
    intros [= <- <-]. split; [done|].
    destruct (migratable (prototype this) (prototype (finalize newClass)))
      eqn:Hm; [|done].
    apply returns_iff_migratable in Hm as [p' Hp']. congruence.
  - intros [= <- <-].
    destruct (migratable (statics this) (statics (finalize newClass)))
      eqn:Hm; [|done].
    apply returns_iff_migratable in Hm as [s' Hs']. congruence.
Qed.

Lemma hotReplaceCallback_failure_witness :
  let result := hotReplaceCallback example_finalize Pinned Replacement in
  result.2 = example_finalize Replacement ∧
  migrateClass result.2 Pinned
  = (Throw (TypeError "Cannot redefine property"), result.1.2) ∧
  if migratable (statics Pinned) (statics result.2)
  then updateObjectMembers (statics result.2) (statics Pinned)
       = (Normal tt, statics result.1.2)
       ∧ migratable (prototype Pinned) (prototype result.2) = false
  else prototype result.1.2 = prototype Pinned.
Proof.
  apply (hotReplaceCallback_failure example_finalize Pinned Replacement _ _
           (TypeError "Cannot redefine property")).
  vm_compute. reflexivity.
Defined.

(* ===================================================================== *)
(** * The per-instance callback: injected style elements *)
(* ===================================================================== *)

Lemma filter_ext_elem_of {A} (P Q : A → Prop) `{!∀ x, Decision (P x)}
    `{!∀ x, Decision (Q x)} (l : list A) :
  (∀ x, x ∈ l → (P x ↔ Q x)) → filter P l = filter Q l.
Proof.
  induction l as [|a l IH]; intros Hl; [done|].
  rewrite !filter_cons.
  assert (P a ↔ Q a) as Ha by (apply Hl, elem_of_cons; by left).
  rewrite IH by (intros x Hx; apply Hl, elem_of_cons; by right).
  destruct (decide (P a)), (decide (Q a)); tauto.
Qed.

Lemma filter_all {A} (P : A → Prop) `{!∀ x, Decision (P x)} (l : list A) :
  (∀ x, P x) → filter P l = l.
Proof.
  intros HP. induction l as [|a l IH]; [done|].
  rewrite filter_cons, decide_True by done. by rewrite IH.
Qed.

Lemma NoDup_fmap_elem_of {A B} (f : A → B) (l : list A) (x y : A) :
  NoDup (f <$> l) → x ∈ l → y ∈ l → f x = f y → x = y.
Proof.
  induction l as [|a l IH]; simpl; [by intros _ Hx; inversion Hx|].
  intros [Ha Hl]%NoDup_cons [->|Hx]%elem_of_cons [->|Hy]%elem_of_cons Hf;
    [done| | |by apply IH].
  - destruct Ha. rewrite Hf. by apply list_elem_of_fmap_2.
  - destruct Ha. rewrite <- Hf. by apply list_elem_of_fmap_2.
Qed.

(** The loop over the snapshot [nodes]: the children of the render root
    that are identical to a style element of the snapshot are gone. *)
Lemma remove_styles_result (nodes : list DomNode) :
  ∀ (w : World) (root : RenderRoot),
  _root (el w) = Some root →
  ∃ w', for_of nodes (λ node, when (is_style_element node) (remove node)) w
        = (Normal tt, w') ∧
        _root (el w')
        = Some (mkRoot (isShadowRoot root)
                  (filter (λ n, node_id n
                                ∉ node_id <$> filter (λ m, is_style_element m = true)
                                                nodes)
                          (children root))).
Proof.
  induction nodes as [|node nodes IH]; intros w root Hroot; simpl.
  - exists w. split; [done|]. rewrite Hroot. destruct root as [sh ch].
    simpl. do 2 f_equal. symmetry. apply filter_all.
    intros n Hin. inversion Hin.
  - unfold bind at 1, when. rewrite filter_cons.
    destruct (is_style_element node) eqn:Hstyle.
    + rewrite decide_True by done.
      unfold remove at 1, modify at 1.
      match goal with
      | |- ∃ w', for_of nodes _ ?w1 = _ ∧ _ =>
          destruct (IH w1 (mkRoot (isShadowRoot root)
                            (filter (λ n, node_id n ≠ node_id node)
                                    (children root))))
            as (w' & Hrun & Hroot')
      end.
      { simpl. by rewrite Hroot. }
      exists w'. split; [done|]. rewrite Hroot'. simpl. do 2 f_equal.
      rewrite list_filter_filter. apply list_filter_iff. intros n.
      rewrite not_elem_of_cons. tauto.
    + rewrite decide_False by (simpl; congruence).
      unfold ret. by apply IH.
Qed.

(** X17: on a platform without adoptable style sheets the per-instance
    callback removes from the render root exactly its style elements (the
    tag name compared without regard to case) and keeps the other children
    in their order; on a platform with them it removes nothing.  The style
    helpers are assumed to return and to leave the root alone. *)
Theorem hotReplaceCallback_removes_style_elements (window : Window)
    (_getUniqueStyles adoptStyles : M World unit) (w : World)
    (root : RenderRoot) :
  _root (el w) = Some root →
  NoDup (node_id <$> children root) →
  (∀ w0, ∃ w1, _getUniqueStyles w0 = (Normal tt, w1)
               ∧ _root (el w1) = _root (el w0)) →
  (∀ w0, ∃ w1, adoptStyles w0 = (Normal tt, w1)
               ∧ _root (el w1) = _root (el w0)) →
  ∃ w',
    prototype_hotReplaceCallback window _getUniqueStyles adoptStyles w
    = (Normal tt, w') ∧
    _root (el w')
    = Some (mkRoot (isShadowRoot root)
              (if supportsAdoptingStyleSheets window then children root
               else filter (λ n, is_style_element n = false) (children root))).
Proof.
  intros Hroot Hnodup Hstyles Hadopt.
  unfold prototype_hotReplaceCallback, prototype_hotReplaceCallback_on,
    spec_host, read_member, call_member, requestUpdate.
  cbn [host_renderRoot host__getUniqueStyles host_adoptStyles
       host_requestUpdate].
  assert (∃ wa, when (negb (supportsAdoptingStyleSheets window))
                  (root ← renderRoot;
                   match root with
                   | None =>
                       throw (TypeError
                         "Cannot read properties of undefined (reading 'children')")
                   | Some root =>
                       for_of (children root)
                         (λ node, when (is_style_element node) (remove node))
                   end) w = (Normal tt, wa)
                ∧ _root (el wa)
                  = Some (mkRoot (isShadowRoot root)
                            (if supportsAdoptingStyleSheets window
                             then children root
                             else filter (λ n, is_style_element n = false)
                                         (children root))))
    as (wa & Ha & Hroota).
  { unfold when. destruct (supportsAdoptingStyleSheets window); simpl.
    { exists w. split; [done|]. rewrite Hroot. by destruct root. }
    unfold bind, renderRoot, gets. rewrite Hroot.
    destruct (remove_styles_result (children root) w root Hroot)
      as (wa & Hrun & Hroota).
    exists wa. split; [done|]. rewrite Hroota. do 2 f_equal.
    apply filter_ext_elem_of. intros n Hn. split.
    - intros Hid. destruct (is_style_element n) eqn:Hstyle; [|done].
      destruct Hid. apply list_elem_of_fmap_2. by apply list_elem_of_filter.
    - intros Hstyle [m [Hid [Hm Hin]%list_elem_of_filter]]%list_elem_of_fmap.
      assert (n = m) as -> by by eapply NoDup_fmap_elem_of.
      congruence. }
  rewrite (bind_Normal _ _ _ _ _ Ha).
  destruct (Hstyles wa) as (wb & Hb & Hrootb).
  rewrite (bind_Normal _ _ _ _ _ Hb).
  unfold renderRoot at 1. unfold bind at 1, gets at 1.
  assert (∃ wc, when (window_ShadowRoot window
                      && match _root (el wb) with
                         | Some r => isShadowRoot r
                         | None => false
                         end) adoptStyles wb = (Normal tt, wc)
                ∧ _root (el wc) = _root (el wb)) as (wc & Hc & Hrootc).
  { unfold when. destruct (_ && _); [|by exists wb]. apply Hadopt. }
  rewrite (bind_Normal _ _ _ _ _ Hc).
  unfold _requestRender. rewrite invalidateProperties_effect.
  eexists. split; [reflexivity|].
  rewrite <- Hroota, <- Hrootb, <- Hrootc.
  by destruct (_ || _).
Qed.

Lemma hotReplaceCallback_removes_style_elements_witness :
  ∃ w',
    prototype_hotReplaceCallback legacy_window (ret tt) (ret tt) styled_world
    = (Normal tt, w') ∧
    _root (el w')
    = Some (mkRoot true
              (if supportsAdoptingStyleSheets legacy_window
               then [mkNode 0 "STYLE"; mkNode 1 "P"]
               else filter (λ n, is_style_element n = false)
                           [mkNode 0 "STYLE"; mkNode 1 "P"])).
Proof.
  apply (hotReplaceCallback_removes_style_elements legacy_window
           (ret tt) (ret tt) styled_world
           (mkRoot true [mkNode 0 "STYLE"; mkNode 1 "P"])).
  - vm_compute. reflexivity.
  - apply (bool_decide_unpack _). vm_compute. exact I.
  - intros w0. by exists w0.
  - intros w0. by exists w0.
Defined.
